(** * Connection pool, query cache and query analyzer

    A shallow embedding of
    - [src/connection/connection_pool.py] ([PooledConnection], [ConnectionPool]),
    - [src/caching/query_cache.py] ([QueryCache]),
    - [src/query/query_analyzer.py] ([QueryAnalyzer]),
    and the properties their specification states about them.

    Conventions of the embedding.
    - Python objects that are shared and mutated (the pooled connections) live
      in an object store [gmap nat _]; a handle is the address of its object,
      and [conn in self.in_use] compares addresses, as Python compares
      identities.
    - [time.time()] is an input: every operation that reads the clock takes
      the readings as arguments.  Clock readings, ages and durations are
      integers (ticks of the clock).
    - Sizes and counts ([min_connections], [max_connections], [max_size],
      the counters) are natural numbers.
    - The operations are modelled for one caller at a time: a blocking
      [Queue.get(timeout=...)] returns the head of a non-empty queue, and on
      an empty one raises [Empty] when the timeout, a number, has passed.
    - A raised exception is a result [Raise e s] that keeps the state [s]
      reached when it was raised. *)

From stdpp Require Import gmap strings list.
From Stdlib Require Import QArith.

Local Open Scope nat_scope.

(** ** Results of fallible operations *)

Inductive exn : Type :=
  | TimeoutError (msg : string)      (* builtin, raised by the pool *)
  | ValueError (msg : string)        (* builtin, raised by [min] and by [Queue.get] *)
  | TypeError (msg : string)         (* builtin, raised by [dict] *)
  | sqlite3_Error (msg : string)     (* raised by the database engine *)
  | Empty                            (* [queue.Empty] *)
  | Full.                            (* [queue.Full] *)

Global Instance exn_eq_dec : EqDecision exn.
Proof. solve_decision. Defined.

Inductive outcome (A S : Type) : Type :=
  | Return (a : A) (s : S)
  | Raise (e : exn) (s : S).
Arguments Return {A S} a s.
Arguments Raise {A S} e s.

Definition state_of {A S} (o : outcome A S) : S :=
  match o with Return _ s => s | Raise _ s => s end.

(** [list.remove(x)]: drops the first occurrence of [x]. *)
Fixpoint list_remove_first (x : nat) (l : list nat) : list nat :=
  match l with
  | [] => []
  | y :: l' => if bool_decide (x = y) then l' else y :: list_remove_first x l'
  end.

(** ** [queue.Queue], as far as the pool uses it *)

Module Queue.

Record t : Type := mk { maxsize : nat; queue : list nat }.

Definition qsize (q : t) : nat := length (queue q).

Definition empty (q : t) : bool := bool_decide (qsize q = 0).

(** [0 < self.maxsize <= self._qsize()]: a queue of [maxsize] 0 has no bound. *)
Definition full (q : t) : bool := (0 <? maxsize q) && (maxsize q <=? qsize q).

(** [put_nowait] *)
Definition put_nowait (c : nat) (q : t) : exn + t :=
  if full q then inl Full else inr (mk (maxsize q) (queue q ++ [c])).

(** [put] without a timeout: on a full queue the single caller waits for
    ever, which [None] stands for. *)
Definition put (c : nat) (q : t) : option t :=
  if full q then None else Some (mk (maxsize q) (queue q ++ [c])).

(** [get(timeout=...)] with a number for the timeout: a negative one is
    refused before the queue is looked at; on an empty queue the single
    caller waits until the timeout has passed and gets [Empty]. *)
Definition get (timeout : Z) (q : t) : exn + (nat * t) :=
  if bool_decide (timeout < 0)%Z
  then inl (ValueError "'timeout' must be a non-negative number")
  else match queue q with
       | [] => inl Empty
       | c :: rest => inr (c, mk (maxsize q) rest)
       end.

Definition get_nowait (q : t) : exn + (nat * t) :=
  match queue q with
  | [] => inl Empty
  | c :: rest => inr (c, mk (maxsize q) rest)
  end.

End Queue.

(** ** [PooledConnection] *)

Module PooledConnection.

(** The wrapped [sqlite3.Connection]; only whether it was closed matters. *)
Inductive sqlite3_Connection : Type := Open | Closed.

(** The fields of a [PooledConnection], but for [pool]: the model has one
    pool, the one that created the object. *)
Record t : Type := mk {
  connection : sqlite3_Connection;
  created_at : Z;
  last_used : Z;
  in_use : bool
}.

(** [__init__]: two readings of the clock. *)
Definition __init__ (t_created t_used : Z) : t := mk Open t_created t_used false.

Definition is_expired (now : Z) (max_age : Z) (c : t) : bool :=
  let age := (now - created_at c)%Z in
  bool_decide (max_age < age)%Z.

Definition set_in_use (b : bool) (c : t) : t :=
  mk (connection c) (created_at c) (last_used c) b.

(** [conn.connection.close()] *)
Definition connection_close (c : t) : t :=
  mk Closed (created_at c) (last_used c) (in_use c).

End PooledConnection.

(** ** [ConnectionPool] *)

Module ConnectionPool.

Record t : Type := mk {
  objects : gmap nat PooledConnection.t;   (* the PooledConnection objects *)
  database_path : string;
  min_connections : nat;
  max_connections : nat;
  timeout : Z;
  max_age : Z;
  available : Queue.t;
  in_use : list nat;
  total_created : nat;
  total_requests : nat;
  total_hits : nat;
  total_misses : nat
}.

Definition with_objects (f : gmap nat PooledConnection.t → gmap nat PooledConnection.t)
    (s : t) : t :=
  mk (f (objects s)) (database_path s) (min_connections s) (max_connections s)
     (timeout s) (max_age s) (available s) (in_use s)
     (total_created s) (total_requests s) (total_hits s) (total_misses s).

Definition with_available (q : Queue.t) (s : t) : t :=
  mk (objects s) (database_path s) (min_connections s) (max_connections s)
     (timeout s) (max_age s) q (in_use s)
     (total_created s) (total_requests s) (total_hits s) (total_misses s).

Definition with_in_use (l : list nat) (s : t) : t :=
  mk (objects s) (database_path s) (min_connections s) (max_connections s)
     (timeout s) (max_age s) (available s) l
     (total_created s) (total_requests s) (total_hits s) (total_misses s).

Definition incr_total_created (s : t) : t :=
  mk (objects s) (database_path s) (min_connections s) (max_connections s)
     (timeout s) (max_age s) (available s) (in_use s)
     (total_created s + 1) (total_requests s) (total_hits s) (total_misses s).

Definition incr_total_requests (s : t) : t :=
  mk (objects s) (database_path s) (min_connections s) (max_connections s)
     (timeout s) (max_age s) (available s) (in_use s)
     (total_created s) (total_requests s + 1) (total_hits s) (total_misses s).

Definition incr_total_hits (s : t) : t :=
  mk (objects s) (database_path s) (min_connections s) (max_connections s)
     (timeout s) (max_age s) (available s) (in_use s)
     (total_created s) (total_requests s) (total_hits s + 1) (total_misses s).

Definition incr_total_misses (s : t) : t :=
  mk (objects s) (database_path s) (min_connections s) (max_connections s)
     (timeout s) (max_age s) (available s) (in_use s)
     (total_created s) (total_requests s) (total_hits s) (total_misses s + 1).

(** [_create_connection]: [sqlite3.connect] is taken to succeed; the new
    object gets an address no object has. *)
Definition _create_connection (tnew : Z * Z) (s : t) : nat * t :=
  let pooled_conn := fresh (dom (objects s)) in
  let s := with_objects <[pooled_conn := PooledConnection.__init__ tnew.1 tnew.2]> s in
  let s := incr_total_created s in
  (pooled_conn, s).

(** [_initialize_pool]: [for _ in range(self.min_connections)]; the [i]-th
    round reads the clock as [clk i].  [None]: a [put] never returns. *)
Definition _initialize_pool (clk : nat → Z * Z) (s : t) : option t :=
  foldl (λ acc i,
           s ← acc;
           let '(conn, s) := _create_connection (clk i) s in
           q ← Queue.put conn (available s);
           Some (with_available q s))
        (Some s) (seq 0 (min_connections s)).

Definition __init__ (clk : nat → Z * Z) (database_path : string)
    (min_connections max_connections : nat) (timeout max_age : Z) : option t :=
  _initialize_pool clk
    (mk ∅ database_path min_connections max_connections timeout max_age
        (Queue.mk max_connections []) [] 0 0 0 0).

(** [conn.is_expired(self.max_age)], read through the handle. *)
Definition is_expired (now : Z) (conn : nat) (s : t) : bool :=
  from_option (PooledConnection.is_expired now (max_age s)) false (objects s !! conn).

(** [get_connection]: [now] is the reading of the clock in [is_expired],
    [tnew] the readings in the constructor of a new handle. *)
Definition get_connection (now : Z) (tnew : Z * Z) (s : t) : outcome nat t :=
  let s := incr_total_requests s in
  match Queue.get (timeout s) (available s) with
  | inr (conn, q) =>
      let s := with_available q s in
      let '(conn, s) :=
        if is_expired now conn s then
          let s := with_objects (alter PooledConnection.connection_close conn) s in
          let '(conn, s) := _create_connection tnew s in
          (conn, incr_total_misses s)
        else (conn, incr_total_hits s) in
      let s := with_objects (alter (PooledConnection.set_in_use true) conn) s in
      let s := with_in_use (in_use s ++ [conn]) s in
      Return conn s
  | inl Empty =>
      let total_connections := Queue.qsize (available s) + length (in_use s) in
      if total_connections <? max_connections s then
        let '(conn, s) := _create_connection tnew s in
        let s := with_objects (alter (PooledConnection.set_in_use true) conn) s in
        let s := with_in_use (in_use s ++ [conn]) s in
        let s := incr_total_misses s in
        Return conn s
      else Raise (TimeoutError "No available connections in pool") s
  | inl e => Raise e s
  end.

Definition release_connection (conn : nat) (s : t) : t :=
  if bool_decide (conn ∈ in_use s) then
    let s := with_in_use (list_remove_first conn (in_use s)) s in
    let s := with_objects (alter (PooledConnection.set_in_use false) conn) s in
    match Queue.put_nowait conn (available s) with
    | inr q => with_available q s
    | inl _ => with_objects (alter PooledConnection.connection_close conn) s
    end
  else s.

(** [PooledConnection.close]: [self.pool.release_connection(self)]; the
    model has one pool, the one every handle was created by. *)
Definition PooledConnection_close (conn : nat) (s : t) : t :=
  release_connection conn s.

(** [close_all] *)
Definition close_all (s : t) : t :=
  let s := with_objects
             (λ o, foldl (λ o c, alter PooledConnection.connection_close c o) o (in_use s)) s in
  let s := with_in_use [] s in
  let s := with_objects
             (λ o, foldl (λ o c, alter PooledConnection.connection_close c o) o
                         (Queue.queue (available s))) s in
  with_available (Queue.mk (Queue.maxsize (available s)) []) s.

(** [get_stats], without the formatted [hit_rate]. *)
Record stats : Type := mk_stats {
  stats_total_created : nat;
  stats_total_requests : nat;
  stats_cache_hits : nat;
  stats_cache_misses : nat;
  stats_available : nat;
  stats_in_use : nat;
  stats_total_connections : nat
}.

Definition get_stats (s : t) : stats :=
  mk_stats (total_created s) (total_requests s) (total_hits s) (total_misses s)
           (Queue.qsize (available s)) (length (in_use s))
           (Queue.qsize (available s) + length (in_use s)).

(** A call of a client on the pool, and the state a sequence of calls
    leaves. *)
Inductive call : Type :=
  | Get (now : Z) (tnew : Z * Z)
  | Release (conn : nat).

Definition step (s : t) (c : call) : t :=
  match c with
  | Get now tnew => state_of (get_connection now tnew s)
  | Release conn => release_connection conn s
  end.

Definition run (cs : list call) (s : t) : t := foldl step s cs.

(** The invariant of a pool: no handle is tracked twice, the queue is
    bounded by [max_connections], the tracked handles are at most
    [max_connections], and each denotes an object whose connection is open
    and whose [in_use] flag says whether it is in the [in_use] list. *)
Record inv (s : t) : Prop := {
  inv_nodup : NoDup (Queue.queue (available s) ++ in_use s);
  inv_maxsize : Queue.maxsize (available s) = max_connections s;
  inv_bound : Queue.qsize (available s) + length (in_use s) ≤ max_connections s;
  inv_live : ∀ c, c ∈ Queue.queue (available s) ++ in_use s →
    ∃ pc, objects s !! c = Some pc
          ∧ PooledConnection.connection pc = PooledConnection.Open
          ∧ PooledConnection.in_use pc = bool_decide (c ∈ in_use s)
}.

(** The states of a pool built with [min_connections <= max_connections]
    and used through [get_connection] and [release_connection]. *)
Inductive reachable : t → Prop :=
  | reachable_init clk path min max timeout max_age s0 :
      min ≤ max →
      __init__ clk path min max timeout max_age = Some s0 →
      reachable s0
  | reachable_step s c : reachable s → reachable (step s c).

End ConnectionPool.

(** ** [QueryCache] *)

Module QueryCache.

(** The library functions [_generate_key] calls: [str.strip], [str.lower],
    [json.dumps(..., sort_keys=True)] on the dictionary of the normalised
    query and the parameter list, and [hashlib.md5(...).hexdigest()]. *)
Class PyLib (param : Type) : Type := {
  str_strip : string → string;
  str_lower : string → string;
  json_dumps : string → list param → string;
  md5_hexdigest : string → string
}.

(** [min(xs, key=f)]: the first element whose key no other element is
    below; [None] stands for [ValueError] on an empty sequence. *)
Definition py_min {A : Type} (f : A → Z) (xs : list A) : option A :=
  match xs with
  | [] => None
  | x :: xs' => Some (foldl (λ best y, if bool_decide (f y < f best)%Z then y else best) x xs')
  end.

Section dict.
Context {V : Type}.

(** A Python [dict] with string keys: the entries in insertion order. *)
Definition dict : Type := list (string * V).

Definition dict_keys (d : dict) : list string := d.*1.

Fixpoint dict_get (k : string) (d : dict) : option V :=
  match d with
  | [] => None
  | (k', v) :: d' => if bool_decide (k = k') then Some v else dict_get k d'
  end.

(** [k in d] *)
Definition dict_contains (k : string) (d : dict) : bool :=
  bool_decide (is_Some (dict_get k d)).

(** [d[k] = v]: an existing key keeps its place, a new one goes last. *)
Fixpoint dict_set (k : string) (v : V) (d : dict) : dict :=
  match d with
  | [] => [(k, v)]
  | (k', v') :: d' =>
      if bool_decide (k = k') then (k, v) :: d' else (k', v') :: dict_set k v d'
  end.

(** [del d[k]], for a key the dictionary has. *)
Fixpoint dict_del (k : string) (d : dict) : dict :=
  match d with
  | [] => []
  | (k', v) :: d' => if bool_decide (k = k') then d' else (k', v) :: dict_del k d'
  end.

(** What a Python dictionary always satisfies: no key twice. *)
Definition dict_wf (d : dict) : Prop := NoDup (dict_keys d).
End dict.

Section cache.
Context {param result : Type} `{!PyLib param}.

Record t : Type := mk {
  ttl : Z;
  max_size : nat;
  cache : list (string * (Z * result));   (* key ↦ (time.time(), result) *)
  hits : nat;
  misses : nat;
  evictions : nat
}.

Definition __init__ (ttl : Z) (max_size : nat) : t := mk ttl max_size [] 0 0 0.

Definition _generate_key (query : string) (params : option (list param)) : string :=
  let cache_data := (str_lower (str_strip query), default [] params) in
  let cache_str := json_dumps cache_data.1 cache_data.2 in
  md5_hexdigest cache_str.

(** [self.cache[k][0]] *)
Definition cached_time (c : list (string * (Z * result))) (k : string) : Z :=
  from_option fst 0%Z (dict_get k c).

Definition get (now : Z) (query : string) (params : option (list param)) (s : t)
    : option result * t :=
  let cache_key := _generate_key query params in
  match dict_get cache_key (cache s) with
  | Some (cached_time, result) =>
      if bool_decide (now - cached_time < ttl s)%Z then
        (Some result,
         mk (ttl s) (max_size s) (cache s) (hits s + 1) (misses s) (evictions s))
      else
        (None,
         mk (ttl s) (max_size s) (dict_del cache_key (cache s))
            (hits s) (misses s + 1) (evictions s))
  | None =>
      (None, mk (ttl s) (max_size s) (cache s) (hits s) (misses s + 1) (evictions s))
  end.

(** The eviction step of [set]; the [ValueError] is the one [min] raises on
    an empty sequence (the wording of its message is the interpreter's). *)
Definition evict_oldest (s : t) : outcome unit t :=
  match py_min (cached_time (cache s)) (dict_keys (cache s)) with
  | None => Raise (ValueError "min() arg is an empty sequence") s
  | Some oldest_key =>
      Return () (mk (ttl s) (max_size s) (dict_del oldest_key (cache s))
                    (hits s) (misses s) (evictions s + 1))
  end.

(** [self.cache[cache_key] = (time.time(), result)] *)
Definition store (now : Z) (cache_key : string) (result : result) (s : t) : t :=
  mk (ttl s) (max_size s) (dict_set cache_key (now, result) (cache s))
     (hits s) (misses s) (evictions s).

Definition set (now : Z) (query : string) (params : option (list param))
    (result : result) (s : t) : outcome unit t :=
  let cache_key := _generate_key query params in
  if max_size s <=? length (cache s) then
    match evict_oldest s with
    | Raise e s => Raise e s
    | Return _ s => Return () (store now cache_key result s)
    end
  else Return () (store now cache_key result s).

(** [if query:] holds for a string that is not empty. *)
Definition invalidate (query : option string) (params : option (list param)) (s : t) : t :=
  match query with
  | Some q =>
      if bool_decide (q ≠ EmptyString) then
        let cache_key := _generate_key q params in
        if dict_contains cache_key (cache s) then
          mk (ttl s) (max_size s) (dict_del cache_key (cache s))
             (hits s) (misses s) (evictions s)
        else s
      else mk (ttl s) (max_size s) [] (hits s) (misses s) (evictions s)
  | None => mk (ttl s) (max_size s) [] (hits s) (misses s) (evictions s)
  end.

Definition clear (s : t) : t := mk (ttl s) (max_size s) [] 0 0 0.

(** [get_stats], without the formatted [hit_rate]. *)
Record stats : Type := mk_stats {
  stats_cache_size : nat;
  stats_max_size : nat;
  stats_ttl_seconds : Z;
  stats_hits : nat;
  stats_misses : nat;
  stats_evictions : nat;
  stats_total_requests : nat
}.

Definition get_stats (s : t) : stats :=
  let total_requests := hits s + misses s in
  mk_stats (length (cache s)) (max_size s) (ttl s) (hits s) (misses s) (evictions s)
           total_requests.

(** The calls of a client, and the state a sequence of them leaves. *)
Inductive call : Type :=
  | CGet (now : Z) (query : string) (params : option (list param))
  | CSet (now : Z) (query : string) (params : option (list param)) (result : result)
  | CInvalidate (query : option string) (params : option (list param))
  | CClear.

Definition step (s : t) (c : call) : t :=
  match c with
  | CGet now q p => (get now q p s).2
  | CSet now q p r => state_of (set now q p r s)
  | CInvalidate q p => invalidate q p s
  | CClear => clear s
  end.

Definition run (cs : list call) (s : t) : t := foldl step s cs.

(** The key a call stores under, if it is a [set]. *)
Definition call_key (c : call) : option string :=
  match c with
  | CSet _ q p _ => Some (_generate_key q p)
  | _ => None
  end.

Definition is_set (c : call) : bool :=
  match c with CSet _ _ _ _ => true | _ => false end.

(** What a cache that started empty satisfies: its dictionary is a
    dictionary and holds at most [max_size] entries. *)
Definition inv (s : t) : Prop :=
  dict_wf (cache s) ∧ length (cache s) ≤ max_size s.

End cache.
Arguments t : clear implicits.
Arguments stats : clear implicits.
Arguments call : clear implicits.

End QueryCache.

(** ** [QueryAnalyzer] *)

Module QueryAnalyzer.

(** The values [get_query_stats] puts in its dictionary: an integer, or a
    number formatted as a percentage ([f"{x:.2f}%"]) or as seconds
    ([f"{x:.4f}s"]); the number is kept, not its digits. *)
Inductive stat_value : Type :=
  | SInt (n : Z)
  | SPercent (x : Q)
  | SSeconds (x : Q).

(** [dict(row)] on a row a cursor returned.  A [sqlite3.Row], the row of a
    connection with [row_factory = sqlite3.Row], converts to the dictionary
    of its columns; a tuple, the row of a connection without a row factory,
    does not, and [dict] raises. *)
Class PyDict (row drow : Type) := py_dict : row → exn + drow.

Section analyzer.
Context {param row drow : Type} `{!PyDict row drow}.

(** What [connection.execute(query, params).fetchall()] gives: the rows,
    or the exception of the engine. *)
Definition Connection : Type := string → list param → exn + list row.

(** [[dict(row) for row in rows]]: the rows are converted in order, and the
    first that does not convert raises. *)
Fixpoint dict_rows (rows : list row) : exn + list drow :=
  match rows with
  | [] => inr []
  | r :: rows =>
      match py_dict r with
      | inl e => inl e
      | inr d =>
          match dict_rows rows with
          | inl e => inl e
          | inr ds => inr (d :: ds)
          end
      end
  end.

(** The [analysis] dictionary. *)
Record analysis : Type := mk_analysis {
  query : string;
  params : option (list param);
  execution_time : Z;
  rows_returned : nat;
  is_slow : bool;
  query_plan : list drow;
  timestamp : Z
}.

Record t : Type := mk {
  slow_query_threshold : Z;
  query_history : list analysis;
  slow_queries : list analysis
}.

Definition __init__ (slow_query_threshold : Z) : t := mk slow_query_threshold [] [].

(** [analyze_query]: the clock is read before and after the execution
    and for the time stamp.  Only the EXPLAIN statement is inside the
    [try]; the conversion of the plan, [[dict(row) for row in query_plan]],
    is outside it and comes before the record is appended, so an exception
    of [dict] goes to the caller and nothing is recorded. *)
Definition analyze_query (connection : Connection) (start_time end_time stamp : Z)
    (query : string) (params : option (list param)) (s : t)
    : outcome (list row * analysis) t :=
  match connection query (default [] params) with
  | inl e => Raise e s
  | inr results =>
      let execution_time := (end_time - start_time)%Z in
      let explain_query := ("EXPLAIN QUERY PLAN " +:+ query)%string in
      let query_plan :=
        match connection explain_query (default [] params) with
        | inr plan => plan
        | inl _ => []
        end in
      match dict_rows query_plan with
      | inl e => Raise e s
      | inr query_plan =>
          let analysis :=
            mk_analysis query params execution_time (length results)
                        (bool_decide (slow_query_threshold s < execution_time)%Z)
                        query_plan stamp in
          let s := mk (slow_query_threshold s) (query_history s ++ [analysis])
                      (slow_queries s) in
          let s := if is_slow analysis
                   then mk (slow_query_threshold s) (query_history s)
                           (slow_queries s ++ [analysis])
                   else s in
          Return (results, analysis) s
      end
  end.

Definition get_slow_queries (s : t) : list analysis := slow_queries s.

Definition ratio (a b : nat) : Q := Qmake (Z.of_nat a) (Pos.of_nat b).

Definition get_query_stats (s : t) : gmap string stat_value :=
  match query_history s with
  | [] =>
      list_to_map
        [("total_queries", SInt 0); ("slow_queries", SInt 0);
         ("avg_execution_time", SInt 0); ("min_execution_time", SInt 0);
         ("max_execution_time", SInt 0)]
  | q :: _ =>
      let execution_times := execution_time <$> query_history s in
      list_to_map
        [("total_queries", SInt (Z.of_nat (length (query_history s))));
         ("slow_queries", SInt (Z.of_nat (length (slow_queries s))));
         ("slow_query_percentage",
            SPercent (ratio (length (slow_queries s)) (length (query_history s))
                      * inject_Z 100));
         ("avg_execution_time",
            SSeconds (Qmake (foldr Z.add 0%Z execution_times)
                            (Pos.of_nat (length execution_times))));
         ("min_execution_time",
            SSeconds (inject_Z (foldr Z.min (execution_time q) execution_times)));
         ("max_execution_time",
            SSeconds (inject_Z (foldr Z.max (execution_time q) execution_times)))]
  end.

Definition reset_stats (s : t) : t := mk (slow_query_threshold s) [] [].

End analyzer.
Arguments analysis : clear implicits.
Arguments t : clear implicits.

End QueryAnalyzer.

(** ** Concrete pools, caches and analyzers

    The inputs the model is run on in the examples below. *)

Module Examples.

(** A pool of one to two connections: as built, after one acquisition, and
    after two. *)
Definition pool_idle : ConnectionPool.t :=
  ConnectionPool.mk {[0 := PooledConnection.mk PooledConnection.Open 0 0 false]}
    "demo.db" 1 2 30 300 (Queue.mk 2 [0]) [] 1 0 0 0.

Definition pool_busy : ConnectionPool.t :=
  ConnectionPool.mk {[0 := PooledConnection.mk PooledConnection.Open 0 0 true]}
    "demo.db" 1 2 30 300 (Queue.mk 2 []) [0] 1 1 1 0.

Definition pool_exhausted : ConnectionPool.t :=
  ConnectionPool.mk
    (<[1 := PooledConnection.mk PooledConnection.Open 11 11 true]>
       {[0 := PooledConnection.mk PooledConnection.Open 0 0 true]})
    "demo.db" 1 2 30 300 (Queue.mk 2 []) [0; 1] 2 2 1 1.

(** A state no pool reaches, in which the queue is full while a handle is
    still in use: the input of the closing branch of [release_connection]. *)
Definition pool_overfull : ConnectionPool.t :=
  ConnectionPool.mk
    (<[1 := PooledConnection.mk PooledConnection.Open 11 11 false]>
       {[0 := PooledConnection.mk PooledConnection.Open 0 0 true]})
    "demo.db" 1 1 30 300 (Queue.mk 1 [1]) [0] 2 2 1 1.

(** Stand-ins for the library functions of [_generate_key]: no
    normalisation, and the key is the query followed by its parameters. *)
Definition plain_keys : QueryCache.PyLib string :=
  {| QueryCache.str_strip := id;
     QueryCache.str_lower := id;
     QueryCache.json_dumps := λ q ps, String.concat "," (q :: ps);
     QueryCache.md5_hexdigest := id |}.

(** A cache of capacity 2 holding the results of two queries, and the
    same entries in a cache of capacity 3. *)
Definition cache_ab : QueryCache.t (list string) :=
  QueryCache.mk 300 2 [("a", (1%Z, ["row a"])); ("b", (2%Z, ["row b"]))] 0 0 0.

Definition cache_ab_room : QueryCache.t (list string) :=
  QueryCache.mk 300 3 [("a", (1%Z, ["row a"])); ("b", (2%Z, ["row b"]))] 0 0 0.

(** [dict(row)] on the rows of the examples, which are written as text: a
    row written as a tuple, what a connection without a row factory
    returns, does not convert; every other row stands for a [sqlite3.Row]
    and for its dictionary. *)
Definition row_dicts : QueryAnalyzer.PyDict string string :=
  λ r, if String.prefix "(" r
       then inl (TypeError
                   "cannot convert dictionary update sequence element #0 to a sequence")
       else inr r.

(** An engine that knows one table. *)
Definition engine : QueryAnalyzer.Connection (param:=string) (row:=string) :=
  λ q ps, if bool_decide (q = "SELECT * FROM users") then inr ["ann"; "bob"]
          else if bool_decide (q = "EXPLAIN QUERY PLAN SELECT * FROM users")
               then inr ["SCAN users"]
               else inl (sqlite3_Error "no such table").

End Examples.

(** ** The rest of the pool: [hit_rate], and sessions with [close_all] *)

Module PoolSession.
Import ConnectionPool.

(** The number [get_stats] formats as ['hit_rate']:
    [(total_hits / total_requests * 100) if total_requests > 0 else 0]. *)
Definition hit_rate (s : t) : Q :=
  if 0 <? total_requests s
  then Qmult (Qmake (Z.of_nat (total_hits s)) (Pos.of_nat (total_requests s))) (inject_Z 100)
  else inject_Z 0.

(** The calls of a client on the pool and on its handles. *)
Inductive call : Type :=
  | Acquire (now : Z) (tnew : Z * Z)      (* [pool.get_connection()] *)
  | Release (conn : nat)                  (* [pool.release_connection(conn)] *)
  | HandleClose (conn : nat)              (* [conn.close()] *)
  | CloseAll.                             (* [pool.close_all()] *)

Definition step (s : t) (c : call) : t :=
  match c with
  | Acquire now tnew => state_of (get_connection now tnew s)
  | Release conn => release_connection conn s
  | HandleClose conn => PooledConnection_close conn s
  | CloseAll => close_all s
  end.

Definition run (cs : list call) (s : t) : t := foldl step s cs.

Inductive reachable : t → Prop :=
  | reachable_init clk path min max timeout max_age s0 :
      min ≤ max →
      __init__ clk path min max timeout max_age = Some s0 →
      reachable s0
  | reachable_step s c : reachable s → reachable (step s c).

(** What the counters of a pool satisfy. *)
Definition counted (s : t) : Prop :=
  total_created s = min_connections s + total_misses s
  ∧ total_hits s + total_misses s ≤ total_requests s.

(** [for conn in conns: pool.release_connection(conn)] *)
Definition release_each (conns : list nat) (s : t) : t :=
  foldl (λ s conn, release_connection conn s) s conns.

End PoolSession.

(** ** Runs of cache calls *)

Module CacheSession.
Section session.
Context {param result : Type} `{!QueryCache.PyLib param}.

Definition is_get (c : QueryCache.call param result) : bool :=
  match c with QueryCache.CGet _ _ _ => true | _ => false end.

Definition is_clear (c : QueryCache.call param result) : bool :=
  match c with QueryCache.CClear => true | _ => false end.

(** [True] when an entry written at [tm] is past its time to live at [now]:
    the negation of the test [time.time() - cached_time < self.ttl]. *)
Definition expired (s : QueryCache.t result) (now tm : Z) : Prop :=
  (QueryCache.ttl s ≤ now - tm)%Z.

End session.
End CacheSession.

(** ** [CacheManager] and [CacheStrategy] ([src/caching/cache_manager.py]) *)

Module CacheManager.
Section manager.
Context {result : Type}.

(** [self.caches]: the caches by name. *)
Definition __init__ : gmap string (QueryCache.t result) := ∅.

Definition create_cache (name : string) (ttl : Z) (max_size : nat)
    (caches : gmap string (QueryCache.t result)) : gmap string (QueryCache.t result) :=
  <[name := QueryCache.__init__ ttl max_size]> caches.

Definition get_cache (name : string) (caches : gmap string (QueryCache.t result))
    : option (QueryCache.t result) :=
  caches !! name.

Definition clear_cache (name : string) (caches : gmap string (QueryCache.t result))
    : gmap string (QueryCache.t result) :=
  if bool_decide (is_Some (caches !! name))
  then alter QueryCache.clear name caches
  else caches.

(** [for cache in self.caches.values(): cache.clear()]: each cache is
    cleared in place, one after the other. *)
Definition clear_all (caches : gmap string (QueryCache.t result))
    : gmap string (QueryCache.t result) :=
  foldr (λ entry acc, alter QueryCache.clear entry.1 acc) caches (map_to_list caches).

(** [for name, cache in self.caches.items(): stats[name] = cache.get_stats()] *)
Definition get_all_stats (caches : gmap string (QueryCache.t result))
    : gmap string (QueryCache.stats) :=
  foldr (λ entry stats, <[entry.1 := QueryCache.get_stats entry.2]> stats) ∅
        (map_to_list caches).

End manager.
End CacheManager.

Module CacheStrategy.
Section strategy.
Context {result : Type}.

Definition invalidate_on_write (cache : QueryCache.t result) (table_name : string)
    : QueryCache.t result :=
  QueryCache.clear cache.

Definition invalidate_pattern (cache : QueryCache.t result) (pattern : string)
    : QueryCache.t result :=
  QueryCache.clear cache.

End strategy.
End CacheStrategy.

(** ** The rest of the analyzer: [explain_query], [compare_queries] *)

Module QueryAnalyzerOps.
Section ops.
Context {param row drow : Type} `{!QueryAnalyzer.PyDict row drow}.

(** [str(e)] *)
Definition exn_str (e : exn) : string :=
  match e with
  | TimeoutError msg | ValueError msg | TypeError msg | sqlite3_Error msg => msg
  | Empty | Full => EmptyString
  end.

(** The dictionary [explain_query] returns: [{'query', 'plan'}] or
    [{'error'}]. *)
Inductive explanation : Type :=
  | Plan (query : string) (plan : list drow)
  | Error (error : string).

(** [explain_query]: the statement and the conversion of its rows are both
    inside the [try], and [except Exception] turns either failure into the
    error dictionary. *)
Definition explain_query (connection : QueryAnalyzer.Connection (param:=param) (row:=row))
    (query : string) (params : option (list param)) : explanation :=
  let explain_query := ("EXPLAIN QUERY PLAN " +:+ query)%string in
  match connection explain_query (default [] params) with
  | inr plan =>
      match QueryAnalyzer.dict_rows plan with
      | inr plan => Plan query plan
      | inl e => Error (exn_str e)
      end
  | inl e => Error (exn_str e)
  end.

(** The rows of the plan as [analyze_query] retrieves them: those of the
    EXPLAIN statement, and none when the statement fails. *)
Definition plan_rows (connection : QueryAnalyzer.Connection (param:=param) (row:=row))
    (query : string) (params : option (list param)) : list row :=
  match connection ("EXPLAIN QUERY PLAN " +:+ query)%string (default [] params) with
  | inr plan => plan
  | inl _ => []
  end.

(** The readings of the clock in one [analyze_query]. *)
Record readings : Type := mk_readings { start_time : Z; end_time : Z; stamp : Z }.

(** What [compare_queries] returns; the times and the speedup are kept as
    numbers. *)
Record comparison : Type := mk_comparison {
  query1 : string * Z * nat;       (* query, time, rows *)
  query2 : string * Z * nat;
  speedup : Q;
  faster : string
}.

Definition compare_queries (connection : QueryAnalyzer.Connection (param:=param) (row:=row))
    (clk1 clk2 : readings) (q1 q2 : string) (params1 params2 : option (list param))
    (s : QueryAnalyzer.t param drow) : outcome comparison (QueryAnalyzer.t param drow) :=
  match QueryAnalyzer.analyze_query connection (start_time clk1) (end_time clk1) (stamp clk1)
          q1 params1 s with
  | Raise e s => Raise e s
  | Return result1 s =>
      match QueryAnalyzer.analyze_query connection (start_time clk2) (end_time clk2)
              (stamp clk2) q2 params2 s with
      | Raise e s => Raise e s
      | Return result2 s =>
          let time1 := QueryAnalyzer.execution_time result1.2 in
          let time2 := QueryAnalyzer.execution_time result2.2 in
          let speedup :=
            if bool_decide (0 < time2)%Z
            then Qdiv (inject_Z time1) (inject_Z time2)
            else inject_Z 0 in
          Return
            (mk_comparison
               (q1, time1, QueryAnalyzer.rows_returned result1.2)
               (q2, time2, QueryAnalyzer.rows_returned result2.2)
               speedup
               (if bool_decide (time2 < time1)%Z then "query2" else "query1"))
            s
      end
  end.

(** The calls of a client on the analyzer, and the states they reach. *)
Inductive call : Type :=
  | Analyze (connection : QueryAnalyzer.Connection (param:=param) (row:=row))
            (clk : readings) (query : string) (params : option (list param))
  | Compare (connection : QueryAnalyzer.Connection (param:=param) (row:=row))
            (clk1 clk2 : readings) (q1 q2 : string) (params1 params2 : option (list param))
  | Reset.

Definition step (s : QueryAnalyzer.t param drow) (c : call) : QueryAnalyzer.t param drow :=
  match c with
  | Analyze connection clk q p =>
      state_of (QueryAnalyzer.analyze_query connection (start_time clk) (end_time clk)
                  (stamp clk) q p s)
  | Compare connection clk1 clk2 q1 q2 p1 p2 =>
      state_of (compare_queries connection clk1 clk2 q1 q2 p1 p2 s)
  | Reset => QueryAnalyzer.reset_stats s
  end.

Definition run (cs : list call) (s : QueryAnalyzer.t param drow)
    : QueryAnalyzer.t param drow :=
  foldl step s cs.

(** The slow list is the slow part of the history, and every record is
    classified by the threshold. *)
Definition classified (s : QueryAnalyzer.t param drow) : Prop :=
  QueryAnalyzer.slow_queries s
    = filter (λ a, QueryAnalyzer.is_slow a = true) (QueryAnalyzer.query_history s)
  ∧ Forall (λ a, QueryAnalyzer.is_slow a
                 = bool_decide (QueryAnalyzer.slow_query_threshold s
                                < QueryAnalyzer.execution_time a)%Z)
           (QueryAnalyzer.query_history s).

End ops.
Arguments explanation : clear implicits.
Arguments call : clear implicits.
End QueryAnalyzerOps.

(** ** The request handler [get_users] ([src/api/app.py])

    The module-level [pool], [analyzer] and [cache] are the state; the
    request carries [city]; the rows are what the engine returns, given to
    [jsonify] as they are. *)

Module App.

(** [dict(row)] on a [sqlite3.Row]: the dictionary of its columns.  The rows
    of the handler are [sqlite3.Row] objects, since [_create_connection]
    sets [row_factory = sqlite3.Row] on every connection of the pool. *)
Class Sqlite3Row (row drow : Type) := Row_dict : row → drow.

Section handlers.
Context {row drow : Type} `{!QueryCache.PyLib string} `{!Sqlite3Row row drow}.

Definition sqlite3_Row_dict : QueryAnalyzer.PyDict row drow := λ r, inr (Row_dict r).

Record state : Type := mk_state {
  pool : ConnectionPool.t;
  analyzer : QueryAnalyzer.t string drow;
  cache : QueryCache.t (list row)
}.

(** The readings of the clock during one request, in the order they are
    taken. *)
Record readings : Type := mk_readings {
  t_cache_get : Z;
  t_acquire : Z;
  t_new_handle : Z * Z;
  t_start : Z;
  t_end : Z;
  t_stamp : Z;
  t_cache_set : Z
}.

Record response : Type := mk_response {
  users : list row;
  count : nat;
  cached : bool;
  execution_time : option Z
}.

(** [conn.connection]: the engine behind an open connection; a closed one
    refuses every statement. *)
Definition connection_of (engine : QueryAnalyzer.Connection (param:=string) (row:=row))
    (conn : nat) (p : ConnectionPool.t) : QueryAnalyzer.Connection (param:=string) (row:=row) :=
  match PooledConnection.connection <$> ConnectionPool.objects p !! conn with
  | Some PooledConnection.Open => engine
  | _ => λ _ _, inl (sqlite3_Error "Cannot operate on a closed database.")
  end.

(** The query and parameters built from [request.args.get('city')]. *)
Definition users_query (city : option string) : string * option (list string) :=
  match city with
  | Some c =>
      if bool_decide (c ≠ EmptyString)
      then ("SELECT id, username, email, city FROM users WHERE city = ?", Some [c])
      else ("SELECT id, username, email, city FROM users LIMIT 100", None)
  | None => ("SELECT id, username, email, city FROM users LIMIT 100", None)
  end.

Definition get_users (engine : QueryAnalyzer.Connection (param:=string) (row:=row))
    (clk : readings) (city : option string) (st : state) : outcome response state :=
  let '(query, params) := users_query city in
  let '(cached_result, c) := QueryCache.get (t_cache_get clk) query params (cache st) in
  let st := mk_state (pool st) (analyzer st) c in
  match cached_result with
  | Some rows => Return (mk_response rows (length rows) true None) st
  | None =>
      match ConnectionPool.get_connection (t_acquire clk) (t_new_handle clk) (pool st) with
      | Raise e p => Raise e (mk_state p (analyzer st) (cache st))
      | Return conn p =>
          let st := mk_state p (analyzer st) (cache st) in
          (* try: *)
          let body : outcome response state :=
            match QueryAnalyzer.analyze_query (PyDict0:=sqlite3_Row_dict)
                    (connection_of engine conn p)
                    (t_start clk) (t_end clk) (t_stamp clk) query params (analyzer st) with
            | Raise e a => Raise e (mk_state (pool st) a (cache st))
            | Return result a =>
                let st := mk_state (pool st) a (cache st) in
                let users := result.1 in
                match QueryCache.set (t_cache_set clk) query params users (cache st) with
                | Raise e c => Raise e (mk_state (pool st) (analyzer st) c)
                | Return _ c =>
                    Return
                      (mk_response users (length users) false
                         (Some (QueryAnalyzer.execution_time result.2)))
                      (mk_state (pool st) (analyzer st) c)
                end
            end in
          (* finally: pool.release_connection(conn) *)
          match body with
          | Return r st =>
              Return r (mk_state (ConnectionPool.release_connection conn (pool st))
                                 (analyzer st) (cache st))
          | Raise e st =>
              Raise e (mk_state (ConnectionPool.release_connection conn (pool st))
                                (analyzer st) (cache st))
          end
      end
  end.

End handlers.
Arguments state : clear implicits.
Arguments response : clear implicits.
End App.

(** ** Concrete requests

    The state of the handler at start-up, the clocks of two requests, and an
    engine that knows the table of users. *)

Module SessionExamples.

Definition users_engine : QueryAnalyzer.Connection (param:=string) (row:=string) :=
  λ q ps,
    if bool_decide (q = "SELECT id, username, email, city FROM users LIMIT 100")
    then inr ["1|ann|ann@example.org|Paris"; "2|bob|bob@example.org|Rome"]
    else if bool_decide
              (q = "EXPLAIN QUERY PLAN SELECT id, username, email, city FROM users LIMIT 100")
         then inr ["SCAN users"]
         else inl (sqlite3_Error "no such table").

(** The rows of [users_engine] stand for [sqlite3.Row] objects, written as
    their dictionaries. *)
Definition text_rows : App.Sqlite3Row string string := id.

(** The same table behind a connection without a row factory: the rows,
    those of the plan too, are tuples. *)
Definition tuple_engine : QueryAnalyzer.Connection (param:=string) (row:=string) :=
  λ q ps,
    if bool_decide (q = "SELECT * FROM users")
    then inr ["(1, 'ann')"; "(2, 'bob')"]
    else if bool_decide (q = "EXPLAIN QUERY PLAN SELECT * FROM users")
         then inr ["(2, 0, 0, 'SCAN users')"]
         else inl (sqlite3_Error "no such table").

Definition app_start : App.state string string :=
  App.mk_state Examples.pool_idle (QueryAnalyzer.__init__ 1) (QueryCache.__init__ 300 2).

Definition first_request : App.readings := App.mk_readings 10 10 (10, 10)%Z 10 12 12 12.

Definition second_request : App.readings := App.mk_readings 20 20 (20, 20)%Z 20 21 21 21.

Definition late_request : App.readings :=
  App.mk_readings 400 400 (400, 400)%Z 400 401 401 401.

(** An analyzer with threshold 3 that has recorded one query of 4 seconds. *)
Definition analyzer_one : QueryAnalyzer.t string string :=
  let a := QueryAnalyzer.mk_analysis "SELECT * FROM users" None 4 2 true ["SCAN users"] 15 in
  QueryAnalyzer.mk 3 [a] [a].

End SessionExamples.

(** * Properties of the connection pool *)

(** Appending one element, as [list.append] and [Queue.put] do. *)
Lemma NoDup_snoc {A} (l : list A) (x : A) : NoDup l → x ∉ l → NoDup (l ++ [x]).
Proof.
  intros Hnd Hx. apply NoDup_app. split; [done|]. split; [|apply NoDup_singleton].
  by intros y Hy ->%list_elem_of_singleton.
Qed.

Lemma elem_of_snoc {A} (l : list A) (x : A) : x ∈ l ++ [x].
Proof. apply elem_of_app. right. by apply list_elem_of_singleton. Qed.

Section pool_facts.
Import ConnectionPool.

(** The new last element of [in_use] is in use. *)
Local Ltac flag_of_last :=
  symmetry; apply bool_decide_eq_true_2, elem_of_snoc.

Lemma list_remove_first_perm (x : nat) (l : list nat) :
  x ∈ l → l ≡ₚ x :: list_remove_first x l.
Proof.
  induction l as [|y l IH]; intros Hx; [by apply elem_of_nil in Hx|].
  simpl. case_bool_decide as Hxy.
  - by subst.
  - apply elem_of_cons in Hx as [Hx|Hx]; [done|].
    rewrite (IH Hx) at 1. apply Permutation_swap.
Qed.

Lemma list_remove_first_notin (x : nat) (l : list nat) :
  x ∉ l → list_remove_first x l = l.
Proof.
  induction l as [|y l IH]; intros Hx; [done|].
  simpl. apply not_elem_of_cons in Hx as [Hxy Hx].
  rewrite bool_decide_eq_false_2 by done. by rewrite IH.
Qed.

Lemma list_remove_first_length (x : nat) (l : list nat) :
  x ∈ l → length (list_remove_first x l) + 1 = length l.
Proof.
  intros Hx. rewrite (Permutation_length (list_remove_first_perm x l Hx)). simpl. lia.
Qed.

Lemma list_remove_first_nodup (x : nat) (l : list nat) :
  NoDup l → x ∉ list_remove_first x l.
Proof.
  intros Hnd. destruct (decide (x ∈ l)) as [Hx|Hx].
  - rewrite (list_remove_first_perm x l Hx) in Hnd. by apply NoDup_cons in Hnd as [? _].
  - by rewrite list_remove_first_notin.
Qed.

Lemma fresh_not_tracked (s : t) :
  inv s → fresh (dom (objects s)) ∉ Queue.queue (available s) ++ in_use s.
Proof.
  intros Hinv Hin. destruct (inv_live s Hinv _ Hin) as (pc & Hpc & _).
  apply (is_fresh (dom (objects s))). apply elem_of_dom. eauto.
Qed.

Lemma initialize_rounds clk (l : list nat) (s : t) :
  inv s → in_use s = [] →
  Queue.qsize (available s) + length l ≤ max_connections s →
  ∃ s', foldl (λ acc i,
                 s ← acc;
                 let '(conn, s) := _create_connection (clk i) s in
                 q ← Queue.put conn (available s);
                 Some (with_available q s)) (Some s) l = Some s'
        ∧ inv s' ∧ in_use s' = []
        ∧ Queue.qsize (available s') = Queue.qsize (available s) + length l
        ∧ max_connections s' = max_connections s
        ∧ min_connections s' = min_connections s.
Proof.
  revert s. induction l as [|i l IH]; intros s Hinv Huse Hlen.
  { exists s. simpl. split_and!; done || lia. }
  simpl in Hlen. simpl foldl.
  pose proof (fresh_not_tracked s Hinv) as Hfresh.
  destruct Hinv as [Hnd Hmax Hbound Hlive].
  unfold Queue.put, Queue.full. simpl.
  rewrite Hmax.
  assert ((max_connections s <=? Queue.qsize (available s)) = false) as ->
    by (apply Nat.leb_gt; lia).
  rewrite andb_false_r. simpl.
  set (c := fresh (dom (objects s))) in *.
  match goal with |- ∃ s', foldl _ (Some ?s1) l = _ ∧ _ => destruct (IH s1) as (s' & Hs' & Hinv' & Huse' & Hq' & Hmax' & Hmin') end.
  - rewrite Huse, app_nil_r in Hfresh, Hnd, Hlive.
    split; simpl; rewrite ?Huse, ?app_nil_r.
    + by apply NoDup_snoc.
    + done.
    + unfold Queue.qsize in *. simpl. rewrite length_app. simpl. lia.
    + intros x [Hx| ->%list_elem_of_singleton]%elem_of_app.
      * destruct (Hlive x Hx) as (pc & Hpc & Hopen & Hflag).
        exists pc. rewrite lookup_insert_ne; [done|]. intros <-. done.
      * eexists. rewrite lookup_insert_eq. split; [done|]. split; [done|].
        done.
  - done.
  - simpl. unfold Queue.qsize in *. simpl. rewrite length_app. simpl. lia.
  - exists s'. split; [done|]. split; [done|]. split; [done|].
    rewrite Hq', Hmax', Hmin'. unfold Queue.qsize. simpl. rewrite length_app. simpl.
    repeat split; lia.
Qed.

Lemma pool_init_inv clk path min max timeout max_age :
  min ≤ max →
  ∃ s0, __init__ clk path min max timeout max_age = Some s0
        ∧ inv s0 ∧ in_use s0 = []
        ∧ Queue.qsize (available s0) = min
        ∧ max_connections s0 = max.
Proof.
  intros Hle. unfold __init__, _initialize_pool.
  match goal with |- ∃ s0, foldl _ (Some ?s1) ?l = _ ∧ _ =>
    destruct (initialize_rounds clk l s1) as (s' & Hs' & Hinv' & Huse' & Hq' & Hmax' & _) end.
  - split; simpl; [apply NoDup_nil_2|done|lia|]. intros c Hc. by apply elem_of_nil in Hc.
  - done.
  - simpl. rewrite length_seq. unfold Queue.qsize. simpl. lia.
  - exists s'. split; [exact Hs'|]. rewrite length_seq in Hq'. simpl in Hq', Hmax'.
    split_and!; done || lia.
Qed.

Lemma is_expired_lookup now conn s pc :
  objects s !! conn = Some pc →
  is_expired now conn s = bool_decide (max_age s < now - PooledConnection.created_at pc)%Z.
Proof. intros Hpc. unfold is_expired. by rewrite Hpc. Qed.

(** The three ways [get_connection] returns a handle, and the one way it
    fails. *)
Lemma get_connection_reuse now tnew s conn q :
  Queue.get (timeout s) (available s) = inr (conn, q) →
  is_expired now conn s = false →
  get_connection now tnew s =
    Return conn
      (with_in_use (in_use s ++ [conn])
         (with_objects (alter (PooledConnection.set_in_use true) conn)
            (incr_total_hits (with_available q (incr_total_requests s))))).
Proof.
  intros Hget Hexp. unfold get_connection. simpl. rewrite Hget.
  unfold is_expired in *. simpl. by rewrite Hexp.
Qed.

Lemma get_connection_replace now tnew s conn q :
  Queue.get (timeout s) (available s) = inr (conn, q) →
  is_expired now conn s = true →
  let conn' := fresh (dom (objects s)) in
  get_connection now tnew s =
    Return conn'
      (with_in_use (in_use s ++ [conn'])
         (with_objects
            (λ o, <[conn' := PooledConnection.set_in_use true
                               (PooledConnection.__init__ tnew.1 tnew.2)]>
                    (alter PooledConnection.connection_close conn o))
            (incr_total_misses
               (incr_total_created (with_available q (incr_total_requests s)))))).
Proof.
  intros Hget Hexp. unfold get_connection. simpl. rewrite Hget.
  unfold is_expired in *. simpl. rewrite Hexp.
  unfold _create_connection. simpl. rewrite dom_alter_L.
  unfold with_in_use, with_objects. simpl.
  repeat f_equal. apply alter_insert_eq.
Qed.

Lemma get_connection_create now tnew s :
  Queue.get (timeout s) (available s) = inl Empty →
  Queue.qsize (available s) + length (in_use s) < max_connections s →
  let conn' := fresh (dom (objects s)) in
  get_connection now tnew s =
    Return conn'
      (incr_total_misses
         (with_in_use (in_use s ++ [conn'])
            (with_objects
               <[conn' := PooledConnection.set_in_use true
                            (PooledConnection.__init__ tnew.1 tnew.2)]>
               (incr_total_created (incr_total_requests s))))).
Proof.
  intros Hget Hlt. unfold get_connection. simpl. rewrite Hget.
  apply Nat.ltb_lt in Hlt. rewrite Hlt.
  unfold _create_connection, incr_total_misses, with_in_use, with_objects. simpl.
  repeat f_equal. apply alter_insert_eq.
Qed.

Lemma get_connection_exhausted now tnew s :
  Queue.get (timeout s) (available s) = inl Empty →
  max_connections s ≤ Queue.qsize (available s) + length (in_use s) →
  get_connection now tnew s =
    Raise (TimeoutError "No available connections in pool") (incr_total_requests s).
Proof.
  intros Hget Hge. unfold get_connection. simpl. rewrite Hget.
  apply Nat.ltb_ge in Hge. by rewrite Hge.
Qed.

Lemma get_connection_refused now tnew s e :
  Queue.get (timeout s) (available s) = inl e → e ≠ Empty →
  get_connection now tnew s = Raise e (incr_total_requests s).
Proof.
  intros Hget He. unfold get_connection. simpl. rewrite Hget. by destruct e.
Qed.

Lemma queue_get_item tmo q conn q' :
  Queue.get tmo q = inr (conn, q') →
  Queue.queue q = conn :: Queue.queue q' ∧ Queue.maxsize q' = Queue.maxsize q.
Proof.
  unfold Queue.get. case_bool_decide; [done|]. destruct (Queue.queue q); naive_solver.
Qed.

Lemma queue_get_Empty tmo q : Queue.get tmo q = inl Empty → Queue.queue q = [].
Proof.
  unfold Queue.get. case_bool_decide; [done|]. by destruct (Queue.queue q).
Qed.


Lemma get_connection_inv now tnew s :
  inv s → inv (state_of (get_connection now tnew s)).
Proof.
  intros Hinv. pose proof (fresh_not_tracked s Hinv) as Hfresh.
  destruct Hinv as [Hnd Hmax Hbound Hlive].
  destruct (Queue.get (timeout s) (available s)) as [e|[conn q]] eqn:Hget;
    [destruct (decide (e = Empty)) as [->|He]|]; cycle 2.
  - destruct (queue_get_item _ _ _ _ Hget) as [Hq Hqmax].
    unfold Queue.qsize in Hbound. rewrite Hq in Hnd, Hbound, Hlive, Hfresh.
    simpl in Hnd, Hbound, Hlive, Hfresh.
    apply NoDup_cons in Hnd as [Hconn Hnd].
    apply not_elem_of_cons in Hfresh as [Hfc Hfresh].
    destruct (is_expired now conn s) eqn:Hexp.
    + rewrite (get_connection_replace _ _ _ _ _ Hget Hexp). simpl.
      set (c := fresh (dom (objects s))) in *.
      split; simpl.
      * rewrite app_assoc. by apply NoDup_snoc.
      * congruence.
      * unfold Queue.qsize. rewrite length_app. simpl. lia.
      * intros x. rewrite app_assoc.
        intros [Hx| ->%list_elem_of_singleton]%elem_of_app.
        -- destruct (Hlive x) as (pc & Hpc & Hopen & Hflag); [by right|].
           exists pc. rewrite lookup_insert_ne by (intros <-; done).
           rewrite lookup_alter_ne by (intros <-; done).
           split_and!; [done..|]. rewrite Hflag.
           apply bool_decide_ext. rewrite elem_of_app, list_elem_of_singleton.
           split; [by left|]. intros [?| ->]; [done|]. exfalso. apply Hfresh, Hx.
        -- eexists. rewrite lookup_insert_eq. split_and!; [done..|]. simpl.
           flag_of_last.
    + rewrite (get_connection_reuse _ _ _ _ _ Hget Hexp). simpl.
      assert (NoDup ((Queue.queue q ++ in_use s) ++ [conn])) as Hnd'.
      { by apply NoDup_snoc. }
      split; simpl.
      * by rewrite app_assoc.
      * congruence.
      * unfold Queue.qsize. rewrite length_app. simpl. lia.
      * intros x. rewrite app_assoc.
        intros [Hx| ->%list_elem_of_singleton]%elem_of_app.
        -- destruct (Hlive x) as (pc & Hpc & Hopen & Hflag); [by right|].
           exists pc. rewrite lookup_alter_ne by (intros <-; done).
           split_and!; [done..|]. rewrite Hflag.
           apply bool_decide_ext. rewrite elem_of_app, list_elem_of_singleton.
           split; [by left|]. intros [?| ->]; [done|]. exfalso. apply Hconn, Hx.
        -- destruct (Hlive conn) as (pc & Hpc & Hopen & Hflag); [by left|].
           eexists. rewrite lookup_alter_eq, Hpc. simpl. split_and!; [done..|].
           flag_of_last.
  - pose proof (queue_get_Empty _ _ Hget) as Hq.
    unfold Queue.qsize in Hbound. rewrite Hq in Hnd, Hbound, Hlive, Hfresh.
    simpl in Hnd, Hbound, Hlive, Hfresh.
    destruct (decide (Queue.qsize (available s) + length (in_use s) < max_connections s))
      as [Hlt|Hge].
    + rewrite (get_connection_create _ _ _ Hget Hlt). simpl.
      set (c := fresh (dom (objects s))) in *.
      unfold Queue.qsize in *. rewrite Hq in Hlt. simpl in Hlt.
      split; simpl; rewrite ?Hq; simpl.
      * by apply NoDup_snoc.
      * done.
      * unfold Queue.qsize. rewrite Hq, length_app. simpl. lia.
      * intros x [Hx| ->%list_elem_of_singleton]%elem_of_app.
        -- destruct (Hlive x Hx) as (pc & Hpc & Hopen & Hflag).
           exists pc. rewrite lookup_insert_ne by (intros <-; done).
           split_and!; [done..|]. rewrite Hflag.
           apply bool_decide_ext. rewrite elem_of_app, list_elem_of_singleton.
           split; [by left|]. intros [?| ->]; [done|]. exfalso. apply Hfresh, Hx.
        -- eexists. rewrite lookup_insert_eq. split_and!; [done..|]. simpl.
           flag_of_last.
    + rewrite (get_connection_exhausted _ _ _ Hget) by lia. simpl.
      split; simpl; rewrite ?Hq; simpl; try done.
      unfold Queue.qsize. rewrite Hq. simpl. lia.
  - rewrite (get_connection_refused _ _ _ _ Hget He). by split.
Qed.


(** The three ways [release_connection] goes. *)
Lemma release_connection_requeue conn s :
  conn ∈ in_use s → Queue.full (available s) = false →
  release_connection conn s =
    with_available (Queue.mk (Queue.maxsize (available s))
                             (Queue.queue (available s) ++ [conn]))
      (with_objects (alter (PooledConnection.set_in_use false) conn)
         (with_in_use (list_remove_first conn (in_use s)) s)).
Proof.
  intros Hin Hfull. unfold release_connection.
  rewrite bool_decide_eq_true_2 by done.
  unfold Queue.put_nowait. simpl. by rewrite Hfull.
Qed.

Lemma release_connection_queue_full conn s :
  conn ∈ in_use s → Queue.full (available s) = true →
  release_connection conn s =
    with_objects (alter PooledConnection.connection_close conn)
      (with_objects (alter (PooledConnection.set_in_use false) conn)
         (with_in_use (list_remove_first conn (in_use s)) s)).
Proof.
  intros Hin Hfull. unfold release_connection.
  rewrite bool_decide_eq_true_2 by done.
  unfold Queue.put_nowait. simpl. by rewrite Hfull.
Qed.

Lemma release_connection_unheld conn s :
  conn ∉ in_use s → release_connection conn s = s.
Proof.
  intros Hin. unfold release_connection. by rewrite bool_decide_eq_false_2.
Qed.

(** In a state that satisfies the invariant the queue has room for every
    handle that is in use. *)
Lemma inv_not_full conn s : inv s → conn ∈ in_use s → Queue.full (available s) = false.
Proof.
  intros [Hnd Hmax Hbound Hlive] Hin. unfold Queue.full.
  apply andb_false_iff. right. apply Nat.leb_gt.
  destruct (in_use s); [by apply elem_of_nil in Hin|]. simpl in Hbound. lia.
Qed.

Lemma release_connection_inv conn s : inv s → inv (release_connection conn s).
Proof.
  intros Hinv. destruct (decide (conn ∈ in_use s)) as [Hin|Hin];
    [|by rewrite release_connection_unheld].
  rewrite release_connection_requeue by eauto using inv_not_full.
  destruct Hinv as [Hnd Hmax Hbound Hlive].
  pose proof (list_remove_first_perm conn (in_use s) Hin) as Hperm.
  assert ((Queue.queue (available s) ++ [conn]) ++ list_remove_first conn (in_use s)
          ≡ₚ Queue.queue (available s) ++ in_use s) as Hperm'.
  { rewrite <-app_assoc. f_equiv. simpl. by rewrite <-Hperm. }
  apply NoDup_app in Hnd as Hnd'. destruct Hnd' as (_ & Hdisj & Hnd2).
  pose proof (list_remove_first_nodup conn (in_use s) Hnd2) as Hgone.
  split; simpl.
  - by rewrite Hperm'.
  - done.
  - unfold Queue.qsize in *. simpl. rewrite length_app. simpl.
    pose proof (list_remove_first_length conn (in_use s) Hin). lia.
  - intros x Hx. rewrite Hperm' in Hx.
    destruct (Hlive x Hx) as (pc & Hpc & Hopen & Hflag).
    destruct (decide (x = conn)) as [->|Hne].
    + eexists. rewrite lookup_alter_eq, Hpc. simpl. split_and!; [done..|].
      symmetry. by apply bool_decide_eq_false_2.
    + exists pc. rewrite lookup_alter_ne by done. split_and!; [done..|].
      rewrite Hflag. apply bool_decide_ext. rewrite (elem_of_Permutation_proper _ _ _ Hperm).
      rewrite elem_of_cons. split; [intros [?|?]; done|by right].
Qed.

Lemma pool_step_inv s c : inv s → inv (step s c).
Proof.
  destruct c; simpl; auto using get_connection_inv, release_connection_inv.
Qed.

Lemma reachable_inv s : reachable s → inv s.
Proof.
  intros Hr. induction Hr as [clk path min max timeout max_age s0 Hle Hinit|s c Hr IH].
  - destruct (pool_init_inv clk path min max timeout max_age Hle) as (s1 & Hs1 & Hinv & _).
    congruence.
  - by apply pool_step_inv.
Qed.

Lemma reachable_run cs s : reachable s → reachable (run cs s).
Proof.
  revert s. induction cs as [|c cs IH]; intros s Hs; [done|].
  simpl. apply IH. by constructor.
Qed.

Lemma step_max_connections s c : max_connections (step s c) = max_connections s.
Proof.
  destruct c as [now tnew|conn]; simpl.
  - unfold get_connection. simpl.
    destruct (Queue.get (timeout s) (available s)) as [e|[conn q]]; simpl.
    + destruct e; try done. by destruct (_ <? _).
    + unfold is_expired. simpl. by destruct (from_option _ _ _).
  - unfold release_connection. case_bool_decide; [|done]. simpl.
    by destruct (Queue.put_nowait _ _).
Qed.

Lemma run_max_connections cs s : max_connections (run cs s) = max_connections s.
Proof.
  revert s. induction cs as [|c cs IH]; intros s; [done|].
  simpl. by rewrite IH, step_max_connections.
Qed.


Lemma alter_lookup_insert (f : PooledConnection.t → PooledConnection.t)
    (o : gmap nat PooledConnection.t) i x :
  o !! i = Some x → alter f i o = <[i := f x]> o.
Proof.
  intros Hx. rewrite <-(insert_id o i x Hx) at 1. apply alter_insert_eq.
Qed.

(** C1. For every sequence of [get_connection] and [release_connection]
    calls on a pool freshly built with [min_connections <= max_connections]
    (the construction returns), after every call the number of available
    handles plus the number of handles in use, as [get_stats] reports
    them, is at most [max_connections]. *)
Theorem pool_never_exceeds_max_connections clk path min max timeout max_age :
  min ≤ max →
  ∃ s0, __init__ clk path min max timeout max_age = Some s0
    ∧ ∀ cs, let st := get_stats (run cs s0) in
        stats_available st + stats_in_use st ≤ max
        ∧ stats_total_connections st ≤ max
        ∧ max_connections (run cs s0) = max.
Proof.
  intros Hle.
  destruct (pool_init_inv clk path min max timeout max_age Hle) as (s0 & Hs0 & Hinv & _ & _ & Hmax).
  exists s0. split; [done|]. intros cs.
  assert (reachable (run cs s0)) as Hr
    by (apply reachable_run; econstructor; eauto).
  apply reachable_inv in Hr. destruct Hr as [_ _ Hbound _].
  rewrite run_max_connections, Hmax in Hbound. simpl.
  rewrite run_max_connections. auto.
Qed.

(** C4. A [get_connection] call whose wait on the queue times out: if the
    available and in-use handles are fewer than [max_connections], a new
    handle is created (an object at an address no object had), marked in
    use, appended to [in_use] and returned, and the miss counter goes up by
    one; otherwise the call raises [TimeoutError] at once, having changed
    only the request counter, and this exception is not the one of a failed
    query. *)
Theorem get_connection_after_timeout now tnew s :
  Queue.get (timeout s) (available s) = inl Empty →
  (Queue.qsize (available s) + length (in_use s) < max_connections s →
     ∃ conn s', get_connection now tnew s = Return conn s'
       ∧ (conn ∉ dom (objects s))
       ∧ objects s' =
           (<[conn := PooledConnection.mk PooledConnection.Open tnew.1 tnew.2 true]>
              (objects s))
       ∧ in_use s' = in_use s ++ [conn]
       ∧ available s' = available s
       ∧ total_misses s' = total_misses s + 1
       ∧ total_hits s' = total_hits s
       ∧ total_created s' = total_created s + 1
       ∧ total_requests s' = total_requests s + 1)
  ∧ (max_connections s ≤ Queue.qsize (available s) + length (in_use s) →
     get_connection now tnew s =
       Raise (TimeoutError "No available connections in pool") (incr_total_requests s)
     ∧ ∀ m, TimeoutError "No available connections in pool" ≠ sqlite3_Error m).
Proof.
  intros Hget. split.
  - intros Hlt. eexists _, _. split; [by apply get_connection_create|].
    simpl. split_and!; try done. apply is_fresh.
  - intros Hge. split; [by apply get_connection_exhausted|]. done.
Qed.

(** C5. A [get_connection] call that obtains a handle from the queue: if
    the handle is older than [max_age] ([now - created_at > max_age]) its
    connection is closed (the object stays in the store, [Closed], with its
    other fields as they were, and is neither queued by the call nor in
    use), a newly created handle, open, takes its place, and the miss
    counter goes up by one; otherwise the same handle is reused, its
    connection as it was, and the hit counter goes up by one.  In both
    cases the returned handle is marked in use and appended to [in_use]. *)
Theorem get_connection_from_available now tnew s conn q pc :
  Queue.get (timeout s) (available s) = inr (conn, q) →
  objects s !! conn = Some pc →
  ((max_age s < now - PooledConnection.created_at pc)%Z →
     ∃ conn' s', get_connection now tnew s = Return conn' s'
       ∧ (conn' ∉ dom (objects s))
       ∧ conn' ≠ conn
       ∧ objects s' =
           (<[conn' := PooledConnection.mk PooledConnection.Open tnew.1 tnew.2 true]>
              (<[conn := PooledConnection.mk PooledConnection.Closed
                           (PooledConnection.created_at pc) (PooledConnection.last_used pc)
                           (PooledConnection.in_use pc)]> (objects s)))
       ∧ objects s' !! conn =
           Some (PooledConnection.mk PooledConnection.Closed
                   (PooledConnection.created_at pc) (PooledConnection.last_used pc)
                   (PooledConnection.in_use pc))
       ∧ objects s' !! conn' =
           Some (PooledConnection.mk PooledConnection.Open tnew.1 tnew.2 true)
       ∧ available s' = q
       ∧ in_use s' = in_use s ++ [conn']
       ∧ total_misses s' = total_misses s + 1
       ∧ total_hits s' = total_hits s
       ∧ total_created s' = total_created s + 1
       ∧ total_requests s' = total_requests s + 1)
  ∧ (¬ (max_age s < now - PooledConnection.created_at pc)%Z →
     ∃ s', get_connection now tnew s = Return conn s'
       ∧ objects s' =
           (<[conn := PooledConnection.mk (PooledConnection.connection pc)
                        (PooledConnection.created_at pc) (PooledConnection.last_used pc)
                        true]> (objects s))
       ∧ objects s' !! conn =
           Some (PooledConnection.mk (PooledConnection.connection pc)
                   (PooledConnection.created_at pc) (PooledConnection.last_used pc) true)
       ∧ available s' = q
       ∧ in_use s' = in_use s ++ [conn]
       ∧ total_hits s' = total_hits s + 1
       ∧ total_misses s' = total_misses s
       ∧ total_created s' = total_created s
       ∧ total_requests s' = total_requests s + 1).
Proof.
  intros Hget Hpc.
  pose proof (is_expired_lookup now conn s pc Hpc) as Hexp.
  assert (fresh (dom (objects s)) ≠ conn) as Hne.
  { intros Heq. apply (is_fresh (dom (objects s))). rewrite Heq.
    apply elem_of_dom. by eexists. }
  split.
  - intros Hold. rewrite bool_decide_eq_true_2 in Hexp by done.
    eexists _, _. split; [by apply get_connection_replace|].
    simpl. split_and!; try done.
    + apply is_fresh.
    + by rewrite (alter_lookup_insert _ _ _ _ Hpc).
    + rewrite lookup_insert_ne by done. rewrite lookup_alter_eq, Hpc. done.
    + by rewrite lookup_insert_eq.
  - intros Hyoung. rewrite bool_decide_eq_false_2 in Hexp by done.
    eexists. split; [by apply get_connection_reuse|].
    simpl. split_and!; try done.
    + exact (alter_lookup_insert (PooledConnection.set_in_use true) _ _ _ Hpc).
    + rewrite lookup_alter_eq, Hpc. done.
Qed.


Lemma release_connection_frame conn s :
  let s' := release_connection conn s in
  (∀ c, c ≠ conn → objects s' !! c = objects s !! c)
  ∧ total_created s' = total_created s
  ∧ total_requests s' = total_requests s
  ∧ total_hits s' = total_hits s
  ∧ total_misses s' = total_misses s
  ∧ max_connections s' = max_connections s
  ∧ min_connections s' = min_connections s.
Proof.
  simpl. unfold release_connection. case_bool_decide; [|done].
  destruct (Queue.put_nowait _ _); simpl; split_and!; try done;
    intros c Hc; by rewrite !lookup_alter_ne.
Qed.

(** C7. [release_connection] on a handle that is in [in_use] removes (one
    occurrence of) it from [in_use] and clears its [in_use] flag; it is
    put back at the end of the [available] queue, with its connection
    untouched, unless the queue is full, in which case the queue is left as
    it is and the connection of the handle is closed.  No other object and
    no counter changes.  On a handle that is not in [in_use] the call
    leaves the whole state as it is. *)
Theorem release_connection_cases conn s :
  (conn ∈ in_use s →
     let s' := release_connection conn s in
     in_use s' = list_remove_first conn (in_use s)
     ∧ length (in_use s') + 1 = length (in_use s)
     ∧ (NoDup (in_use s) → conn ∉ in_use s')
     ∧ (∀ c, c ≠ conn → objects s' !! c = objects s !! c)
     ∧ total_created s' = total_created s
     ∧ total_requests s' = total_requests s
     ∧ total_hits s' = total_hits s
     ∧ total_misses s' = total_misses s
     ∧ (Queue.full (available s) = false →
          available s' = Queue.mk (Queue.maxsize (available s))
                                  (Queue.queue (available s) ++ [conn])
          ∧ ∀ pc, objects s !! conn = Some pc →
              objects s' !! conn = Some (PooledConnection.set_in_use false pc))
     ∧ (Queue.full (available s) = true →
          available s' = available s
          ∧ ∀ pc, objects s !! conn = Some pc →
              objects s' !! conn =
                Some (PooledConnection.connection_close
                        (PooledConnection.set_in_use false pc))))
  ∧ (conn ∉ in_use s → release_connection conn s = s).
Proof.
  split; [|apply release_connection_unheld].
  intros Hin. simpl.
  destruct (release_connection_frame conn s) as (Hobj & Hc & Hr & Hh & Hm & _).
  assert (in_use (release_connection conn s) = list_remove_first conn (in_use s)) as Huse.
  { destruct (Queue.full (available s)) eqn:Hfull.
    - by rewrite release_connection_queue_full.
    - by rewrite release_connection_requeue. }
  rewrite Huse. split_and!; try done.
  - by apply list_remove_first_length.
  - apply list_remove_first_nodup.
  - intros Hfull. rewrite release_connection_requeue by done. simpl.
    split; [done|]. intros pc Hpc. by rewrite lookup_alter_eq, Hpc.
  - intros Hfull. rewrite release_connection_queue_full by done. simpl.
    split; [done|]. intros pc Hpc. by rewrite !lookup_alter_eq, Hpc.
Qed.

Lemma get_connection_returns_held now tnew s conn s' :
  get_connection now tnew s = Return conn s' → conn ∈ in_use s'.
Proof.
  unfold get_connection. simpl.
  destruct (Queue.get (timeout s) (available s)) as [e|[c q]].
  - destruct e; try done. destruct (_ <? _); [|done]. simpl. intros [= <- <-].
    apply elem_of_snoc.
  - unfold is_expired. simpl.
    destruct (from_option _ _ _); simpl; intros [= <- <-]; apply elem_of_snoc.
Qed.

(** C10. [close] on a [PooledConnection] is [release_connection] of its
    pool on the handle.  It changes the state of the wrapped connection
    only when the handle is in use and the queue is full, the branch of
    [release_connection] that closes; a handle that [get_connection]
    returned is in [in_use]; and in every state a pool reaches, closing a
    handle that is in use leaves its connection open, clears its flag,
    puts it at the end of the [available] queue and takes it out of
    [in_use]. *)
Theorem pooled_connection_close_releases conn s :
  PooledConnection_close conn s = release_connection conn s
  ∧ (∀ pc pc', objects s !! conn = Some pc →
       objects (PooledConnection_close conn s) !! conn = Some pc' →
       PooledConnection.connection pc' = PooledConnection.connection pc
       ∨ (conn ∈ in_use s ∧ Queue.full (available s) = true
          ∧ PooledConnection.connection pc' = PooledConnection.Closed))
  ∧ (∀ now tnew s0, get_connection now tnew s0 = Return conn s → conn ∈ in_use s)
  ∧ (reachable s → conn ∈ in_use s →
       let s' := PooledConnection_close conn s in
       (∃ pc, objects s !! conn = Some pc
          ∧ PooledConnection.connection pc = PooledConnection.Open
          ∧ objects s' !! conn = Some (PooledConnection.set_in_use false pc))
       ∧ Queue.queue (available s') = Queue.queue (available s) ++ [conn]
       ∧ (conn ∉ in_use s')
       ∧ reachable s').
Proof.
  unfold PooledConnection_close. split; [done|]. split; [|split].
  - intros pc pc' Hpc Hpc'.
    destruct (decide (conn ∈ in_use s)) as [Hin|Hin].
    + destruct (Queue.full (available s)) eqn:Hf.
      * right. rewrite release_connection_queue_full in Hpc' by done. simpl in Hpc'.
        rewrite !lookup_alter_eq, Hpc in Hpc'. injection Hpc' as <-. done.
      * left. rewrite release_connection_requeue in Hpc' by done. simpl in Hpc'.
        rewrite lookup_alter_eq, Hpc in Hpc'. injection Hpc' as <-. done.
    + left. rewrite release_connection_unheld in Hpc' by done. congruence.
  - intros now tnew s0. apply get_connection_returns_held.
  - intros Hr Hin. simpl.
    pose proof (reachable_inv s Hr) as Hinv.
    pose proof (inv_not_full conn s Hinv Hin) as Hroom.
    destruct (inv_live s Hinv conn) as (pc & Hpc & Hopen & _);
      [apply elem_of_app; by right|].
    rewrite release_connection_requeue by done. simpl. split_and!.
    + exists pc. by rewrite lookup_alter_eq, Hpc.
    + done.
    + apply list_remove_first_nodup.
      destruct Hinv as [Hnd _ _ _]. by apply NoDup_app in Hnd as (_ & _ & ?).
    + rewrite <-(release_connection_requeue conn s Hin Hroom).
      apply (reachable_step s (Release conn) Hr).
Qed.

End pool_facts.

(** * Properties of the query cache *)

Section dict_facts.
Import QueryCache.
Context {V : Type}.
Implicit Types (d : list (string * V)) (k : string) (v : V).

Lemma dict_get_None k d : dict_get k d = None ↔ k ∉ dict_keys d.
Proof.
  induction d as [|[k' v'] d IH]; simpl.
  - split; [intros _; apply not_elem_of_nil|done].
  - rewrite not_elem_of_cons. case_bool_decide; [|tauto]. split; [done|tauto].
Qed.

Lemma dict_get_is_Some k d : is_Some (dict_get k d) ↔ k ∈ dict_keys d.
Proof.
  rewrite <-not_eq_None_Some, dict_get_None.
  destruct (decide (k ∈ dict_keys d)); tauto.
Qed.

Lemma dict_get_set_eq k v d : dict_get k (dict_set k v d) = Some v.
Proof.
  induction d as [|[k' v'] d IH]; simpl.
  - by rewrite bool_decide_eq_true_2.
  - case_bool_decide as Hk; simpl.
    + by rewrite bool_decide_eq_true_2.
    + by rewrite bool_decide_eq_false_2.
Qed.

Lemma dict_get_set_ne k k' v d : k ≠ k' → dict_get k' (dict_set k v d) = dict_get k' d.
Proof.
  intros Hne. induction d as [|[k1 v1] d IH]; simpl.
  - by rewrite bool_decide_eq_false_2.
  - case_bool_decide as Hk; simpl; [subst k1|by rewrite IH].
    by rewrite !(bool_decide_eq_false_2 (k' = k)).
Qed.

Lemma dict_keys_set_present k v d :
  is_Some (dict_get k d) → dict_keys (dict_set k v d) = dict_keys d.
Proof.
  unfold dict_keys. induction d as [|[k1 v1] d IH]; simpl; [by intros [? ?]|].
  case_bool_decide as Hk; simpl; [by subst|]. intros Hs. f_equal. by apply IH.
Qed.

Lemma dict_keys_set_absent k v d :
  dict_get k d = None → dict_keys (dict_set k v d) = dict_keys d ++ [k].
Proof.
  unfold dict_keys. induction d as [|[k1 v1] d IH]; simpl; [done|].
  case_bool_decide as Hk; simpl; [done|]. intros Hs. f_equal. by apply IH.
Qed.

Lemma dict_keys_length d : length (dict_keys d) = length d.
Proof. unfold dict_keys. apply length_fmap. Qed.

Lemma dict_set_length_present k v d :
  is_Some (dict_get k d) → length (dict_set k v d) = length d.
Proof.
  intros Hs. by rewrite <-!dict_keys_length, dict_keys_set_present.
Qed.

Lemma dict_set_length_absent k v d :
  dict_get k d = None → length (dict_set k v d) = S (length d).
Proof.
  intros Hs. rewrite <-!dict_keys_length, dict_keys_set_absent by done.
  rewrite length_app. simpl. lia.
Qed.

Lemma dict_set_length_le k v d : length (dict_set k v d) ≤ S (length d).
Proof.
  destruct (dict_get k d) eqn:Hk.
  - rewrite dict_set_length_present by eauto. lia.
  - by rewrite dict_set_length_absent.
Qed.

Lemma dict_set_wf k v d : dict_wf d → dict_wf (dict_set k v d).
Proof.
  unfold dict_wf. intros Hwf. destruct (dict_get k d) eqn:Hk.
  - by rewrite dict_keys_set_present by eauto.
  - rewrite dict_keys_set_absent by done. apply NoDup_snoc; [done|].
    by apply dict_get_None.
Qed.

Lemma dict_del_length k d :
  is_Some (dict_get k d) → length (dict_del k d) + 1 = length d.
Proof.
  induction d as [|[k1 v1] d IH]; simpl; [by intros [? ?]|].
  case_bool_decide as Hk; simpl; [lia|]. intros Hs. rewrite <-(IH Hs). lia.
Qed.

Lemma dict_del_length_le k d : length (dict_del k d) ≤ length d.
Proof.
  induction d as [|[k1 v1] d IH]; simpl; [done|]. case_bool_decide; simpl; lia.
Qed.

Lemma dict_get_del_ne k k' d : k ≠ k' → dict_get k' (dict_del k d) = dict_get k' d.
Proof.
  intros Hne. induction d as [|[k1 v1] d IH]; simpl; [done|].
  case_bool_decide as Hk; simpl; [subst k1|by rewrite IH].
  by rewrite (bool_decide_eq_false_2 (k' = k)).
Qed.

Lemma dict_keys_del_subseteq k d : dict_keys (dict_del k d) ⊆ dict_keys d.
Proof.
  intros k' Hk'. apply dict_get_is_Some in Hk'. apply dict_get_is_Some.
  destruct (decide (k = k')) as [->|Hne]; [|by rewrite dict_get_del_ne in Hk'].
  destruct (dict_get k' d) eqn:Hget; [done|]. exfalso.
  apply dict_get_None in Hget.
  assert (dict_del k' d = d) as Heq.
  { clear Hk'. induction d as [|[k1 v1] d IH]; simpl; [done|].
    simpl in Hget. apply not_elem_of_cons in Hget as [Hne Hget].
    rewrite bool_decide_eq_false_2 by done. by rewrite IH. }
  rewrite Heq in Hk'. apply dict_get_None in Hget. rewrite Hget in Hk'.
  by destruct Hk'.
Qed.

Lemma dict_del_wf k d : dict_wf d → dict_wf (dict_del k d).
Proof.
  unfold dict_wf. induction d as [|[k1 v1] d IH]; simpl; [done|].
  rewrite NoDup_cons. intros [Hk1 Hnd]. case_bool_decide as Hk; simpl; [done|].
  apply NoDup_cons. split; [|by apply IH].
  intros Hin. apply Hk1. by apply (dict_keys_del_subseteq k d).
Qed.

Lemma dict_get_del_eq k d : dict_wf d → dict_get k (dict_del k d) = None.
Proof.
  unfold dict_wf. induction d as [|[k1 v1] d IH]; simpl; [done|].
  rewrite NoDup_cons. intros [Hk1 Hnd]. case_bool_decide as Hk; simpl.
  - subst k1. by apply dict_get_None.
  - rewrite bool_decide_eq_false_2 by done. by apply IH.
Qed.

(** [min(xs, key=f)] returns an element of [xs] with the least key, and
    fails only on the empty sequence. *)
Lemma py_min_foldl {A} (f : A → Z) (xs : list A) (x : A) :
  let m := foldl (λ best y, if bool_decide (f y < f best)%Z then y else best) x xs in
  (m = x ∨ m ∈ xs) ∧ (f m ≤ f x)%Z ∧ ∀ y, y ∈ xs → (f m ≤ f y)%Z.
Proof.
  revert x. induction xs as [|y xs IH]; intros x; simpl.
  - split_and!; [by left|done|]. intros y Hy. by apply elem_of_nil in Hy.
  - case_bool_decide as Hlt.
    + destruct (IH y) as (Hm & Hle & Hall). split_and!.
      * right. destruct Hm as [->|Hm]; [left|right]; done.
      * lia.
      * intros z [->|Hz]%elem_of_cons; auto.
    + destruct (IH x) as (Hm & Hle & Hall). split_and!.
      * destruct Hm as [->|Hm]; [by left|right]. by right.
      * done.
      * intros z [->|Hz]%elem_of_cons; [lia|auto].
Qed.

Lemma py_min_Some {A} (f : A → Z) (xs : list A) (m : A) :
  py_min f xs = Some m → m ∈ xs ∧ ∀ y, y ∈ xs → (f m ≤ f y)%Z.
Proof.
  destruct xs as [|x xs]; simpl; [done|]. intros [= <-].
  destruct (py_min_foldl f xs x) as (Hm & Hle & Hall). split.
  - destruct Hm as [->|Hm]; [left|by right].
  - intros y [->|Hy]%elem_of_cons; auto.
Qed.

(** Among the elements with the least key, [min] returns the first. *)
Lemma py_min_foldl_first {A} (f : A → Z) (xs : list A) (x : A) (pre mid : list A) :
  (∀ y, y ∈ pre → (f x < f y)%Z) →
  (∀ y, y ∈ mid → (f x ≤ f y)%Z) →
  let m := foldl (λ best y, if bool_decide (f y < f best)%Z then y else best) x xs in
  ∃ l1 l2, pre ++ x :: mid ++ xs = l1 ++ m :: l2
    ∧ (∀ y, y ∈ l1 → (f m < f y)%Z)
    ∧ (∀ y, y ∈ l2 → (f m ≤ f y)%Z).
Proof.
  revert x pre mid. induction xs as [|y xs IH]; intros x pre mid Hpre Hmid; simpl.
  - exists pre, mid. by rewrite app_nil_r.
  - case_bool_decide as Hlt.
    + destruct (IH y (pre ++ x :: mid) []) as (l1 & l2 & Heq & H1 & H2).
      * intros z [Hz|[->|Hz]%elem_of_cons]%elem_of_app.
        -- specialize (Hpre z Hz). lia.
        -- done.
        -- specialize (Hmid z Hz). lia.
      * intros z Hz. by apply elem_of_nil in Hz.
      * exists l1, l2. split; [|done]. rewrite <-Heq. simpl. by rewrite <-app_assoc.
    + destruct (IH x pre (mid ++ [y])) as (l1 & l2 & Heq & H1 & H2).
      * done.
      * intros z [Hz| ->%list_elem_of_singleton]%elem_of_app; [by apply Hmid|lia].
      * exists l1, l2. split; [|done]. rewrite <-Heq. by rewrite <-app_assoc.
Qed.

Lemma py_min_first {A} (f : A → Z) (xs : list A) (m : A) :
  py_min f xs = Some m →
  ∃ l1 l2, xs = l1 ++ m :: l2
    ∧ (∀ y, y ∈ l1 → (f m < f y)%Z)
    ∧ (∀ y, y ∈ l2 → (f m ≤ f y)%Z).
Proof.
  destruct xs as [|x xs]; simpl; [done|]. intros [= <-].
  destruct (py_min_foldl_first f xs x [] []) as (l1 & l2 & Heq & H1 & H2).
  - intros y Hy. by apply elem_of_nil in Hy.
  - intros y Hy. by apply elem_of_nil in Hy.
  - exists l1, l2. done.
Qed.

Lemma py_min_is_Some {A} (f : A → Z) (xs : list A) :
  xs ≠ [] → is_Some (py_min f xs).
Proof. destruct xs; [done|]. simpl. eauto. Qed.

End dict_facts.

Section cache_facts.
Import QueryCache.
Context {param result : Type} `{!PyLib param}.
Implicit Types (s : QueryCache.t result) (q : string) (p : option (list param)).

Lemma cached_time_get (c : list (string * (Z * result))) k tm v :
  dict_get k c = Some (tm, v) → cached_time c k = tm.
Proof. intros Hk. unfold cached_time. by rewrite Hk. Qed.

(** The three ways [set] goes. *)
Lemma set_room now q p (r : result) s :
  length (cache s) < max_size s →
  set now q p r s = Return () (store now (_generate_key q p) r s).
Proof.
  intros Hlt. unfold set.
  by rewrite (proj2 (Nat.leb_gt (max_size s) (length (cache s)))).
Qed.

Lemma set_evicting now q p (r : result) s oldest_key :
  max_size s ≤ length (cache s) →
  py_min (cached_time (cache s)) (dict_keys (cache s)) = Some oldest_key →
  set now q p r s =
    Return () (store now (_generate_key q p) r
                 (mk (ttl s) (max_size s) (dict_del oldest_key (cache s))
                     (hits s) (misses s) (evictions s + 1))).
Proof.
  intros Hge Hmin. unfold set, evict_oldest.
  rewrite (proj2 (Nat.leb_le (max_size s) (length (cache s)))) by done.
  by rewrite Hmin.
Qed.

Lemma set_raises now q p (r : result) s :
  max_size s ≤ length (cache s) → cache s = [] →
  set now q p r s = Raise (ValueError "min() arg is an empty sequence") s.
Proof.
  intros Hge Hnil. unfold set, evict_oldest.
  rewrite (proj2 (Nat.leb_le (max_size s) (length (cache s)))) by done.
  by rewrite Hnil.
Qed.

(** In a non-empty dictionary [min] finds a key whose time stamp no stored
    time stamp is below. *)
Lemma oldest_key_exists (c : list (string * (Z * result))) :
  c ≠ [] →
  ∃ oldest_key tm v,
    py_min (cached_time c) (dict_keys c) = Some oldest_key
    ∧ dict_get oldest_key c = Some (tm, v)
    ∧ ∀ k tm' v', dict_get k c = Some (tm', v') → (tm ≤ tm')%Z.
Proof.
  intros Hne.
  destruct (py_min_is_Some (cached_time c) (dict_keys c)) as [oldest Hmin].
  { destruct c; [done|]. done. }
  destruct (py_min_Some _ _ _ Hmin) as [Hin Hall].
  apply dict_get_is_Some in Hin as Hget. destruct Hget as [[tm v] Hget].
  exists oldest, tm, v. split_and!; [done..|].
  intros k tm' v' Hk.
  rewrite <-(cached_time_get c oldest tm v Hget), <-(cached_time_get c k tm' v' Hk).
  apply Hall. apply dict_get_is_Some. eauto.
Qed.

Lemma oldest_key_first (c : list (string * (Z * result))) oldest_key tm v :
  py_min (cached_time c) (dict_keys c) = Some oldest_key →
  dict_get oldest_key c = Some (tm, v) →
  ∃ before after,
    dict_keys c = before ++ oldest_key :: after
    ∧ ∀ k, k ∈ before → (tm < cached_time c k)%Z.
Proof.
  intros Hmin Hget.
  destruct (py_min_first _ _ _ Hmin) as (before & after & Hkeys & Hbefore & _).
  exists before, after. split; [done|]. intros k Hk.
  rewrite <-(cached_time_get c oldest_key tm v Hget). by apply Hbefore.
Qed.

Lemma set_returns now q p (r : result) s :
  1 ≤ max_size s → ∃ s', set now q p r s = Return () s'.
Proof.
  intros Hmax. destruct (decide (length (cache s) < max_size s)) as [Hlt|Hge].
  - eexists. by apply set_room.
  - destruct (oldest_key_exists (cache s)) as (k & tm & v & Hmin & _).
    { destruct (cache s); [simpl in Hge; lia|done]. }
    eexists. apply set_evicting; [lia|done].
Qed.

Lemma cache_step_max_size s (c : call param result) : max_size (step s c) = max_size s.
Proof.
  destruct c as [now q p|now q p r|[q|] p|]; simpl; try done.
  - unfold get. destruct (dict_get _ _) as [[tm v]|]; [|done]. by case_bool_decide.
  - unfold set, evict_oldest. destruct (_ <=? _); [|done]. by destruct (py_min _ _).
  - case_bool_decide; [|done]. by destruct (dict_contains _ _).
Qed.

Lemma cache_step_inv s (c : call param result) : inv s → inv (step s c).
Proof.
  intros [Hwf Hlen]. destruct c as [now q p|now q p r|[q|] p|]; simpl.
  - unfold get. destruct (dict_get _ _) as [[tm v]|]; [|done].
    case_bool_decide; [done|]. split; simpl; [by apply dict_del_wf|].
    pose proof (dict_del_length_le (_generate_key q p) (cache s)). lia.
  - destruct (decide (length (cache s) < max_size s)) as [Hlt|Hge].
    + rewrite set_room by done. split; simpl; [by apply dict_set_wf|].
      pose proof (dict_set_length_le (_generate_key q p) (now, r) (cache s)). lia.
    + destruct (decide (cache s = [])) as [Hnil|Hne].
      * by rewrite set_raises by (done || lia).
      * destruct (oldest_key_exists (cache s) Hne) as (k & tm & v & Hmin & Hk & _).
        rewrite (set_evicting _ _ _ _ _ k) by (done || lia).
        split; simpl; [by apply dict_set_wf, dict_del_wf|].
        pose proof (dict_set_length_le (_generate_key q p) (now, r)
                      (dict_del k (cache s))).
        pose proof (dict_del_length k (cache s) (mk_is_Some _ _ Hk)). lia.
  - case_bool_decide; [|split; simpl; [apply NoDup_nil_2|lia]].
    destruct (dict_contains _ _); [|done]. split; simpl; [by apply dict_del_wf|].
    pose proof (dict_del_length_le (_generate_key q p) (cache s)). lia.
  - split; simpl; [apply NoDup_nil_2|lia].
  - split; simpl; [apply NoDup_nil_2|lia].
Qed.

Lemma cache_run_snoc cs (c : call param result) s : run (cs ++ [c]) s = step (run cs s) c.
Proof. unfold run. by rewrite foldl_app. Qed.

Lemma cache_run_inv cs s : inv s → inv (run cs s).
Proof.
  induction cs as [|c cs IH] using rev_ind; [done|].
  intros Hs. rewrite cache_run_snoc. by apply cache_step_inv, IH.
Qed.

Lemma cache_run_max_size cs s : max_size (run cs s) = max_size s.
Proof.
  induction cs as [|c cs IH] using rev_ind; [done|].
  by rewrite cache_run_snoc, cache_step_max_size.
Qed.

Lemma cache_init_inv ttl max_size : inv (__init__ (result:=result) ttl max_size).
Proof. split; simpl; [apply NoDup_nil_2|lia]. Qed.


Lemma run_distinct_sets ttl max_size (cs : list (call param result)) :
  1 ≤ max_size →
  Forall (λ c, is_set c = true) cs →
  NoDup (omap call_key cs) →
  let s := run cs (__init__ ttl max_size) in
  dict_keys (cache s) ⊆ omap call_key cs
  ∧ evictions s = length cs - max_size
  ∧ length (cache s) = length cs `min` max_size.
Proof.
  intros Hmax. induction cs as [|c cs IH] using rev_ind; intros Hsets Hnd.
  { simpl. split_and!; [done|lia|lia]. }
  apply Forall_app in Hsets as [Hsets Hc]. apply (proj1 (Forall_singleton _ _)) in Hc.
  rewrite omap_app in Hnd. apply NoDup_app in Hnd as (Hnd & Hdisj & _).
  destruct (IH Hsets Hnd) as (Hkeys & Hev & Hlen). clear IH.
  destruct c as [now q p|now q p r|q p|]; try done. simpl in Hdisj |- *.
  rewrite omap_app, cache_run_snoc, length_app. simpl.
  set (s := run cs (__init__ ttl max_size)) in *.
  set (k := _generate_key q p) in *.
  pose proof (cache_run_inv cs _ (cache_init_inv ttl max_size)) as [Hwf _]. fold s in Hwf.
  pose proof (cache_run_max_size cs (__init__ (result:=result) ttl max_size)) as Hms.
  fold s in Hms. simpl in Hms.
  assert (k ∉ dict_keys (cache s)) as Hfresh.
  { intros Hin. apply (Hdisj k); [by apply Hkeys|]. by apply list_elem_of_singleton. }
  destruct (decide (length (cache s) < QueryCache.max_size s)) as [Hlt|Hge].
  - rewrite set_room by done. simpl.
    rewrite dict_keys_set_absent, dict_set_length_absent by by apply dict_get_None.
    split_and!; [|lia..].
    intros x [Hx| Hx]%elem_of_app; apply elem_of_app; [left; by apply Hkeys|by right].
  - destruct (oldest_key_exists (cache s)) as (oldest & tm & v & Hmin & Hold & _).
    { destruct (cache s); [simpl in Hge; lia|done]. }
    rewrite (set_evicting _ _ _ _ _ oldest) by (done || lia). simpl.
    pose proof (dict_keys_del_subseteq oldest (cache s)) as Hsub.
    assert (dict_get k (dict_del oldest (cache s)) = None) as Habs.
    { apply dict_get_None. intros Hin. by apply Hfresh, Hsub. }
    rewrite dict_keys_set_absent, dict_set_length_absent by done.
    pose proof (dict_del_length oldest (cache s) (mk_is_Some _ _ Hold)).
    split_and!; [|lia..].
    intros x [Hx| Hx]%elem_of_app; apply elem_of_app; [left|by right].
    by apply Hkeys, Hsub.
Qed.

(** C2, amended.  On a cache with [max_size >= 1]: a [set] call that finds
    at least [max_size] entries evicts exactly one entry before it
    inserts, an entry whose time stamp no stored time stamp is below (of
    several such, the one inserted first), and adds one to the eviction
    counter; a [set] call that finds fewer entries evicts nothing.  Hence inserting distinct keys into an empty
    cache evicts once for each insert past [max_size] (once in all for
    [max_size + 1] inserts), and, whatever [max_size] is, a cache that
    started empty never holds more than [max_size] entries. *)
Theorem set_evicts_oldest_at_capacity :
  (∀ s now q p (r : result),
     dict_wf (cache s) → 1 ≤ max_size s →
     (max_size s ≤ length (cache s) →
        ∃ oldest_key tm v,
          dict_get oldest_key (cache s) = Some (tm, v)
          ∧ (∀ k tm' v', dict_get k (cache s) = Some (tm', v') → (tm ≤ tm')%Z)
          ∧ (∃ before after,
               dict_keys (cache s) = before ++ oldest_key :: after
               ∧ ∀ k, k ∈ before → (tm < cached_time (cache s) k)%Z)
          ∧ length (dict_del oldest_key (cache s)) + 1 = length (cache s)
          ∧ dict_get oldest_key (dict_del oldest_key (cache s)) = None
          ∧ (∀ k, k ≠ oldest_key →
               dict_get k (dict_del oldest_key (cache s)) = dict_get k (cache s))
          ∧ set now q p r s =
              Return () (store now (_generate_key q p) r
                           (mk (ttl s) (max_size s) (dict_del oldest_key (cache s))
                               (hits s) (misses s) (evictions s + 1)))
          ∧ evictions (state_of (set now q p r s)) = evictions s + 1)
     ∧ (length (cache s) < max_size s →
          set now q p r s = Return () (store now (_generate_key q p) r s)
          ∧ evictions (state_of (set now q p r s)) = evictions s))
  ∧ (∀ ttl max_size (cs : list (call param result)),
       1 ≤ max_size →
       Forall (λ c, is_set c = true) cs →
       NoDup (omap call_key cs) →
       let s := run cs (__init__ ttl max_size) in
       evictions s = length cs - max_size
       ∧ length (cache s) = length cs `min` max_size
       ∧ (length cs = max_size + 1 → evictions s = 1 ∧ length (cache s) = max_size))
  ∧ (∀ ttl max_size (cs : list (call param result)),
       stats_cache_size (get_stats (run cs (__init__ ttl max_size))) ≤ max_size).
Proof.
  split_and!.
  - intros s now q p r Hwf Hmax. split.
    + intros Hge.
      destruct (oldest_key_exists (cache s)) as (oldest & tm & v & Hmin & Hold & Hleast).
      { destruct (cache s); [simpl in Hge; lia|done]. }
      exists oldest, tm, v.
      rewrite (set_evicting _ _ _ _ _ oldest) by done. simpl.
      split_and!; try done.
      * by apply (oldest_key_first _ _ _ v).
      * apply dict_del_length. eauto.
      * by apply dict_get_del_eq.
      * intros k Hk. by apply dict_get_del_ne.
    + intros Hlt. by rewrite set_room.
  - intros ttl max_size cs Hmax Hsets Hnd. simpl.
    destruct (run_distinct_sets ttl max_size cs Hmax Hsets Hnd) as (_ & Hev & Hlen).
    split_and!; [done..|]. intros Hn. lia.
  - intros ttl max_size cs. simpl.
    pose proof (cache_run_inv cs _ (cache_init_inv ttl max_size)) as [_ Hlen].
    by rewrite cache_run_max_size in Hlen.
Qed.


Lemma set_Return now q p (v : result) s s1 :
  set now q p v s = Return () s1 →
  dict_get (_generate_key q p) (cache s1) = Some (now, v)
  ∧ ttl s1 = ttl s ∧ hits s1 = hits s ∧ misses s1 = misses s
  ∧ (dict_wf (cache s) → dict_wf (cache s1)).
Proof.
  unfold set, evict_oldest. destruct (_ <=? _).
  - destruct (py_min _ _) as [oldest|]; [|done]. intros [= <-]. simpl.
    split_and!; try done; [apply dict_get_set_eq|].
    intros Hwf. by apply dict_set_wf, dict_del_wf.
  - intros [= <-]. simpl. split_and!; try done; [apply dict_get_set_eq|].
    intros Hwf. by apply dict_set_wf.
Qed.

Lemma dict_get_del_None {V} k k' (d : list (string * V)) :
  dict_get k d = None → dict_get k (dict_del k' d) = None.
Proof.
  rewrite !dict_get_None. intros Hk Hin. by apply Hk, (dict_keys_del_subseteq k' d).
Qed.

Lemma step_keeps_absent s (c : call param result) k :
  dict_get k (cache s) = None → call_key c ≠ Some k →
  dict_get k (cache (step s c)) = None.
Proof.
  intros Habs Hc. destruct c as [now q p|now q p r|[q|] p|]; simpl; try done.
  - unfold get. destruct (dict_get (_generate_key q p) (cache s)) as [[tm v]|]; simpl; [|done].
    case_bool_decide; simpl; [done|]. by apply dict_get_del_None.
  - simpl in Hc. assert (_generate_key q p ≠ k) as Hne by congruence.
    unfold set, evict_oldest. destruct (_ <=? _).
    + destruct (py_min _ _) as [oldest|]; [|done]. simpl.
      rewrite dict_get_set_ne by done. by apply dict_get_del_None.
    + simpl. by rewrite dict_get_set_ne.
  - case_bool_decide; [|done]. destruct (dict_contains _ _); [|done].
    simpl. by apply dict_get_del_None.
Qed.

(** C3. A [set(q, p, v)] on a cache with [max_size >= 1] returns.  After
    it has returned at clock reading [now], a
    [get(q, p)] at a reading [now'] with [now' - now < ttl] returns [v] and
    counts a hit; at a reading with [now' - now >= ttl] it returns nothing,
    counts a miss and deletes the entry, so that [cache_size] of
    [get_stats] is one less.  A [get] on a key the cache does not hold, as
    is every key no [set] was called for, returns nothing and counts a
    miss. *)
Theorem get_after_set :
  (∀ s now q p (v : result),
     1 ≤ max_size s → ∃ s1, set now q p v s = Return () s1)
  ∧ (∀ s now q p (v : result) s1,
     dict_wf (cache s) →
     set now q p v s = Return () s1 →
     (∀ now', (now' - now < ttl s)%Z →
        get now' q p s1 =
          (Some v, mk (ttl s1) (max_size s1) (cache s1)
                      (hits s1 + 1) (misses s1) (evictions s1)))
     ∧ (∀ now', ¬ (now' - now < ttl s)%Z →
        ∃ s2, get now' q p s1 = (None, s2)
          ∧ misses s2 = misses s1 + 1
          ∧ hits s2 = hits s1
          ∧ dict_get (_generate_key q p) (cache s2) = None
          ∧ (∀ k, k ≠ _generate_key q p → dict_get k (cache s2) = dict_get k (cache s1))
          ∧ stats_cache_size (get_stats s2) + 1 = stats_cache_size (get_stats s1)))
  ∧ (∀ s now q p,
       dict_get (_generate_key q p) (cache s) = None →
       get now q p s =
         (None, mk (ttl s) (max_size s) (cache s) (hits s) (misses s + 1) (evictions s)))
  ∧ (∀ ttl max_size (cs : list (call param result)) q p,
       (∀ c, c ∈ cs → call_key c ≠ Some (_generate_key q p)) →
       dict_get (_generate_key q p) (cache (run cs (__init__ ttl max_size))) = None).
Proof.
  split_and!.
  - intros s now q p v Hmax. by apply set_returns.
  - intros s now q p v s1 Hwf Hset.
    destruct (set_Return _ _ _ _ _ _ Hset) as (Hget & Httl & _ & _ & Hwf1).
    split.
    + intros now' Hfresh. unfold get. rewrite Hget, Httl.
      by rewrite bool_decide_eq_true_2.
    + intros now' Hstale. unfold get. rewrite Hget, Httl.
      rewrite bool_decide_eq_false_2 by done.
      eexists. split; [done|]. simpl. split_and!; try done.
      * apply dict_get_del_eq. auto.
      * intros k Hk. by apply dict_get_del_ne.
      * apply dict_del_length. eauto.
  - intros s now q p Habs. unfold get. by rewrite Habs.
  - intros ttl max_size cs q p. induction cs as [|c cs IH] using rev_ind; [done|].
    intros Hcs. rewrite cache_run_snoc. apply step_keeps_absent.
    + apply IH. intros c' Hc'. apply Hcs, elem_of_app. by left.
    + apply Hcs, elem_of_app. right. by apply list_elem_of_singleton.
Qed.



End cache_facts.

(** * Properties of the query analyzer *)

Section analyzer_facts.
Import QueryAnalyzer.
Context {param row drow : Type} `{!PyDict row drow}.
Implicit Types (s : QueryAnalyzer.t param drow)
               (connection : Connection (param:=param) (row:=row)).

(** A call of [analyze_query] whose query the engine executes, and whose
    plan converts, appends one record to the history, and appends that same
    record to the slow list, with [is_slow] set, exactly when the execution
    took longer than the threshold. *)
Lemma analyze_query_records connection start_time end_time stamp q p s results plan :
  connection q (default [] p) = inr results →
  dict_rows (match connection ("EXPLAIN QUERY PLAN " +:+ q) (default [] p) with
             | inr plan => plan
             | inl _ => []
             end) = inr plan →
  ∃ a s', analyze_query connection start_time end_time stamp q p s = Return (results, a) s'
    ∧ query_history s' = query_history s ++ [a]
    ∧ query a = q
    ∧ query_plan a = plan
    ∧ execution_time a = (end_time - start_time)%Z
    ∧ rows_returned a = length results
    ∧ (is_slow a = true ↔ (slow_query_threshold s < end_time - start_time)%Z)
    ∧ slow_queries s' = (if is_slow a then slow_queries s ++ [a] else slow_queries s)
    ∧ slow_query_threshold s' = slow_query_threshold s.
Proof.
  intros Hexec Hplan. unfold analyze_query. rewrite Hexec, Hplan. simpl.
  eexists _, _. split; [done|]. case_bool_decide as Hslow; simpl.
  - by split_and!.
  - by split_and!.
Qed.

(** An exception of [dict] on a row of the plan goes to the caller, and
    nothing is recorded. *)
Lemma analyze_query_plan_raises connection start_time end_time stamp q p s results e :
  connection q (default [] p) = inr results →
  dict_rows (match connection ("EXPLAIN QUERY PLAN " +:+ q) (default [] p) with
             | inr plan => plan
             | inl _ => []
             end) = inl e →
  analyze_query connection start_time end_time stamp q p s = Raise e s.
Proof. intros Hexec Hplan. unfold analyze_query. by rewrite Hexec, Hplan. Qed.

(** A failure of the engine on the query itself goes to the caller, and
    nothing is recorded. *)
Lemma analyze_query_raises connection start_time end_time stamp q p s e :
  connection q (default [] p) = inl e →
  analyze_query connection start_time end_time stamp q p s = Raise e s.
Proof. intros Hexec. unfold analyze_query. by rewrite Hexec. Qed.

(** C9, at the input where the code departs from it.  On an empty history
    [get_query_stats] returns five fields, all zero, and no
    [slow_query_percentage], the field that the same function returns as
    soon as the history is not empty. *)
Theorem get_query_stats_empty_history threshold :
  get_query_stats (__init__ (param:=param) (drow:=drow) threshold) =
    list_to_map
      [("total_queries", SInt 0); ("slow_queries", SInt 0);
       ("avg_execution_time", SInt 0); ("min_execution_time", SInt 0);
       ("max_execution_time", SInt 0)]
  ∧ get_query_stats (__init__ (param:=param) (drow:=drow) threshold)
      !! "slow_query_percentage" = None
  ∧ ∀ s, query_history s ≠ [] →
      is_Some (get_query_stats s !! "slow_query_percentage").
Proof.
  split; [done|]. split; [done|].
  intros s Hne. unfold get_query_stats. destruct (query_history s) as [|a h]; [done|].
  simpl. rewrite lookup_insert_ne by done. rewrite lookup_insert_ne by done.
  rewrite lookup_insert_eq. eauto.
Qed.

End analyzer_facts.

(** * The model on concrete inputs *)

Section examples.
Import Examples.

Example pool_idle_built :
  ConnectionPool.__init__ (λ _, (0, 0)%Z) "demo.db" 1 2 30 300 = Some pool_idle.
Proof. vm_compute. reflexivity. Qed.

Example pool_busy_after_get :
  ConnectionPool.get_connection 10 (10, 10)%Z pool_idle = Return 0 pool_busy.
Proof. vm_compute. reflexivity. Qed.

Example pool_exhausted_after_second_get :
  ConnectionPool.get_connection 11 (11, 11)%Z pool_busy = Return 1 pool_exhausted.
Proof. vm_compute. reflexivity. Qed.

Example pool_third_get_raises :
  ConnectionPool.get_connection 12 (12, 12)%Z pool_exhausted =
    Raise (TimeoutError "No available connections in pool")
          (ConnectionPool.incr_total_requests pool_exhausted).
Proof. vm_compute. reflexivity. Qed.

Example pool_negative_timeout :
  ConnectionPool.get_connection 10 (10, 10)%Z
    (ConnectionPool.mk ∅ "demo.db" 0 2 (-1) 300 (Queue.mk 2 []) [] 0 0 0 0) =
    Raise (ValueError "'timeout' must be a non-negative number")
          (ConnectionPool.mk ∅ "demo.db" 0 2 (-1) 300 (Queue.mk 2 []) [] 0 1 0 0).
Proof. vm_compute. reflexivity. Qed.

Example pool_release_then_get :
  ConnectionPool.run [ConnectionPool.Release 0; ConnectionPool.Get 13 (13, 13)%Z]
                     pool_exhausted
  = ConnectionPool.mk (ConnectionPool.objects pool_exhausted)
      "demo.db" 1 2 30 300 (Queue.mk 2 []) [1; 0] 2 3 2 1.
Proof. vm_compute. reflexivity. Qed.

Example cache_ab_built :
  QueryCache.run (PyLib0:=plain_keys)
    [QueryCache.CSet 1 "a" None ["row a"]; QueryCache.CSet 2 "b" None ["row b"]]
    (QueryCache.__init__ 300 2) = cache_ab.
Proof. reflexivity. Qed.

Example cache_third_key_evicts_oldest :
  QueryCache.set (PyLib0:=plain_keys) 3 "c" None ["row c"] cache_ab =
    Return () (QueryCache.mk 300 2
                 [("b", (2%Z, ["row b"])); ("c", (3%Z, ["row c"]))] 0 0 1).
Proof. reflexivity. Qed.

Example analyzer_slow_query :
  state_of (QueryAnalyzer.analyze_query (PyDict0:=row_dicts) engine 10 14 15
              "SELECT * FROM users" None (QueryAnalyzer.__init__ 3)) =
    let a := QueryAnalyzer.mk_analysis "SELECT * FROM users" None 4 2 true
               ["SCAN users"] 15 in
    QueryAnalyzer.mk 3 [a] [a].
Proof. reflexivity. Qed.

Example analyzer_failed_query :
  QueryAnalyzer.analyze_query (PyDict0:=row_dicts) engine 10 14 15 "SELECT * FROM orders" None
    (QueryAnalyzer.__init__ 3) =
    Raise (sqlite3_Error "no such table") (QueryAnalyzer.__init__ 3).
Proof. reflexivity. Qed.

End examples.

(** * The theorems at concrete inputs *)

Section witnesses.
Import Examples.

Lemma pool_busy_reachable : ConnectionPool.reachable pool_busy.
Proof.
  replace pool_busy with (ConnectionPool.step pool_idle (ConnectionPool.Get 10 (10, 10)%Z))
    by (vm_compute; reflexivity).
  apply ConnectionPool.reachable_step.
  apply (ConnectionPool.reachable_init (λ _, (0, 0)%Z) "demo.db" 1 2 30 300); [lia|].
  vm_compute. reflexivity.
Qed.

Lemma pool_never_exceeds_max_connections_witness :
  1 ≤ 2
  ∧ ∃ s0, ConnectionPool.__init__ (λ _, (0, 0)%Z) "demo.db" 1 2 30 300 = Some s0
      ∧ ∀ cs, let st := ConnectionPool.get_stats (ConnectionPool.run cs s0) in
          ConnectionPool.stats_available st + ConnectionPool.stats_in_use st ≤ 2
          ∧ ConnectionPool.stats_total_connections st ≤ 2
          ∧ ConnectionPool.max_connections (ConnectionPool.run cs s0) = 2.
Proof.
  split; [lia|]. apply pool_never_exceeds_max_connections. lia.
Defined.

Lemma get_connection_after_timeout_witness :
  (Queue.get (ConnectionPool.timeout pool_busy) (ConnectionPool.available pool_busy)
     = inl Empty
   ∧ ∃ conn s',
       ConnectionPool.get_connection 11 (11, 11)%Z pool_busy = Return conn s'
       ∧ ConnectionPool.in_use s' = [0; conn]
       ∧ ConnectionPool.total_misses s' = 1)
  ∧ (Queue.get (ConnectionPool.timeout pool_exhausted)
                  (ConnectionPool.available pool_exhausted) = inl Empty
     ∧ ConnectionPool.get_connection 12 (12, 12)%Z pool_exhausted =
         Raise (TimeoutError "No available connections in pool")
               (ConnectionPool.incr_total_requests pool_exhausted)).
Proof.
  split; (split; [reflexivity|]).
  - destruct (get_connection_after_timeout 11 (11, 11)%Z pool_busy eq_refl) as [Hnew _].
    destruct Hnew as (conn & s' & Hget & _ & _ & Huse & _ & Hmiss & _);
      [simpl; lia|].
    exists conn, s'. split; [exact Hget|]. split; [exact Huse|exact Hmiss].
  - destruct (get_connection_after_timeout 12 (12, 12)%Z pool_exhausted eq_refl)
      as [_ Hfull].
    destruct Hfull as (Hget & _); [simpl; lia|].
    exact Hget.
Defined.

Lemma get_connection_from_available_witness :
  Queue.get (ConnectionPool.timeout pool_idle) (ConnectionPool.available pool_idle)
    = inr (0, Queue.mk 2 [])
  ∧ ConnectionPool.objects pool_idle !! 0 =
      Some (PooledConnection.mk PooledConnection.Open 0 0 false)
  ∧ (∃ s', ConnectionPool.get_connection 10 (10, 10)%Z pool_idle = Return 0 s'
       ∧ ConnectionPool.objects s' !! 0 =
           Some (PooledConnection.mk PooledConnection.Open 0 0 true)
       ∧ ConnectionPool.in_use s' = [0]
       ∧ ConnectionPool.total_hits s' = 1)
  ∧ (∃ conn' s', ConnectionPool.get_connection 400 (400, 400)%Z pool_idle = Return conn' s'
       ∧ conn' ≠ 0
       ∧ ConnectionPool.objects s' !! 0 =
           Some (PooledConnection.mk PooledConnection.Closed 0 0 false)
       ∧ ConnectionPool.objects s' !! conn' =
           Some (PooledConnection.mk PooledConnection.Open 400 400 true)
       ∧ ConnectionPool.in_use s' = [conn']
       ∧ ConnectionPool.total_misses s' = 1).
Proof.
  split; [reflexivity|]. split; [reflexivity|]. split.
  - destruct (get_connection_from_available 10 (10, 10)%Z pool_idle 0 (Queue.mk 2 [])
                (PooledConnection.mk PooledConnection.Open 0 0 false) eq_refl eq_refl)
      as [_ Hyoung].
    destruct Hyoung as (s' & Hget & _ & Hobj & _ & Huse & Hhits & _); [simpl; lia|].
    exists s'. split; [exact Hget|]. split; [exact Hobj|]. split; [exact Huse|exact Hhits].
  - destruct (get_connection_from_available 400 (400, 400)%Z pool_idle 0 (Queue.mk 2 [])
                (PooledConnection.mk PooledConnection.Open 0 0 false) eq_refl eq_refl)
      as [Hold _].
    destruct Hold as (conn' & s' & Hget & _ & Hne & _ & Hclosed & Hnew & _ & Huse & Hmiss & _);
      [simpl; lia|].
    exists conn', s'. split; [exact Hget|]. split; [exact Hne|]. split; [exact Hclosed|].
    split; [exact Hnew|]. split; [exact Huse|exact Hmiss].
Defined.

Lemma release_connection_cases_witness :
  (0 ∈ ConnectionPool.in_use pool_busy
   ∧ ConnectionPool.available (ConnectionPool.release_connection 0 pool_busy) = Queue.mk 2 [0]
   ∧ ConnectionPool.in_use (ConnectionPool.release_connection 0 pool_busy) = [])
  ∧ (0 ∈ ConnectionPool.in_use pool_overfull
     ∧ Queue.full (ConnectionPool.available pool_overfull) = true
     ∧ ConnectionPool.objects (ConnectionPool.release_connection 0 pool_overfull) !! 0 =
         Some (PooledConnection.mk PooledConnection.Closed 0 0 false))
  ∧ ((5 ∉ ConnectionPool.in_use pool_busy)
     ∧ ConnectionPool.release_connection 5 pool_busy = pool_busy).
Proof.
  assert (0 ∈ ConnectionPool.in_use pool_busy) as Hheld by constructor.
  assert (0 ∈ ConnectionPool.in_use pool_overfull) as Hheld' by constructor.
  assert (5 ∉ ConnectionPool.in_use pool_busy) as Hunheld by compute_done.
  split; [|split].
  - split; [exact Hheld|].
    destruct (release_connection_cases 0 pool_busy) as [Hin _].
    destruct (Hin Hheld) as (Huse & _ & _ & _ & _ & _ & _ & _ & Hroom & _).
    destruct (Hroom eq_refl) as [Hq _]. split; [exact Hq|exact Huse].
  - split; [exact Hheld'|]. split; [reflexivity|].
    destruct (release_connection_cases 0 pool_overfull) as [Hin _].
    destruct (Hin Hheld') as (_ & _ & _ & _ & _ & _ & _ & _ & _ & Hfull).
    destruct (Hfull eq_refl) as [_ Hobj].
    exact (Hobj (PooledConnection.mk PooledConnection.Open 0 0 true) eq_refl).
  - split; [exact Hunheld|].
    destruct (release_connection_cases 5 pool_busy) as [_ Hnot]. exact (Hnot Hunheld).
Defined.

Lemma pooled_connection_close_releases_witness :
  ConnectionPool.reachable pool_busy
  ∧ 0 ∈ ConnectionPool.in_use pool_busy
  ∧ (∃ pc, ConnectionPool.objects pool_busy !! 0 = Some pc
       ∧ PooledConnection.connection pc = PooledConnection.Open
       ∧ ConnectionPool.objects (ConnectionPool.PooledConnection_close 0 pool_busy) !! 0
         = Some (PooledConnection.set_in_use false pc))
  ∧ Queue.queue (ConnectionPool.available (ConnectionPool.PooledConnection_close 0 pool_busy))
    = [0]
  ∧ (0 ∉ ConnectionPool.in_use (ConnectionPool.PooledConnection_close 0 pool_busy)).
Proof.
  assert (0 ∈ ConnectionPool.in_use pool_busy) as Hheld by constructor.
  split; [exact pool_busy_reachable|]. split; [exact Hheld|].
  destruct (pooled_connection_close_releases 0 pool_busy) as (_ & _ & _ & Hclose).
  destruct (Hclose pool_busy_reachable Hheld) as (Hobj & Hq & Hgone & _).
  split; [exact Hobj|]. split; [exact Hq|exact Hgone].
Defined.

Lemma cache_ab_wf : QueryCache.dict_wf (QueryCache.cache cache_ab).
Proof. unfold QueryCache.dict_wf. compute_done. Qed.

Lemma set_evicts_oldest_at_capacity_witness :
  (QueryCache.dict_wf (QueryCache.cache cache_ab)
   ∧ 1 ≤ QueryCache.max_size cache_ab
   ∧ QueryCache.max_size cache_ab ≤ length (QueryCache.cache cache_ab)
   ∧ ∃ oldest_key tm v,
       QueryCache.dict_get oldest_key (QueryCache.cache cache_ab) = Some (tm, v)
       ∧ QueryCache.evictions
           (state_of (QueryCache.set (PyLib0:=plain_keys) 3 "c" None ["row c"] cache_ab))
         = QueryCache.evictions cache_ab + 1)
  ∧ (let s := QueryCache.run (PyLib0:=plain_keys)
                [QueryCache.CSet 1 "a" None ["row a"]; QueryCache.CSet 2 "b" None ["row b"];
                 QueryCache.CSet 3 "c" None ["row c"]]
                (QueryCache.__init__ 300 2) in
     QueryCache.evictions s = 1 ∧ length (QueryCache.cache s) = 2)
  ∧ QueryCache.stats_cache_size
      (QueryCache.get_stats
         (QueryCache.run (PyLib0:=plain_keys) [QueryCache.CSet 1 "a" None ["row a"]]
            (QueryCache.__init__ 300 0))) ≤ 0.
Proof.
  destruct (@set_evicts_oldest_at_capacity string (list string) plain_keys)
    as (Hcall & Hseq & Hsize).
  split; [|split].
  - split; [exact cache_ab_wf|]. split; [simpl; lia|]. split; [simpl; lia|].
    destruct (Hcall cache_ab 3%Z "c" None ["row c"] cache_ab_wf) as [Hfull _];
      [simpl; lia|].
    destruct Hfull as (oldest & tm & v & Hget & _ & _ & _ & _ & _ & _ & Hev); [simpl; lia|].
    exists oldest, tm, v. split; [exact Hget|exact Hev].
  - destruct (Hseq 300%Z 2
                [QueryCache.CSet 1 "a" None ["row a"]; QueryCache.CSet 2 "b" None ["row b"];
                 QueryCache.CSet 3 "c" None ["row c"]])
      as (_ & _ & Hone).
    + lia.
    + repeat constructor.
    + compute_done.
    + apply Hone. reflexivity.
  - apply Hsize.
Defined.

Lemma get_after_set_witness :
  let s1 := QueryCache.mk 300 2 [("a", (1%Z, ["row a"]))] 0 0 0 in
  QueryCache.set (PyLib0:=plain_keys) 1 "a" None ["row a"] (QueryCache.__init__ 300 2)
    = Return () s1
  ∧ QueryCache.get (PyLib0:=plain_keys) 5 "a" None s1
    = (Some ["row a"], QueryCache.mk 300 2 [("a", (1%Z, ["row a"]))] 1 0 0)
  ∧ (∃ s2, QueryCache.get (PyLib0:=plain_keys) 301 "a" None s1 = (None, s2)
       ∧ QueryCache.misses s2 = 1
       ∧ QueryCache.stats_cache_size (QueryCache.get_stats s2) + 1
         = QueryCache.stats_cache_size (QueryCache.get_stats s1))
  ∧ QueryCache.get (PyLib0:=plain_keys) 5 "b" None s1
    = (None, QueryCache.mk 300 2 [("a", (1%Z, ["row a"]))] 0 1 0).
Proof.
  intros s1.
  destruct (@get_after_set string (list string) plain_keys)
    as (_ & Hset & Habsent & _).
  destruct (Hset (QueryCache.__init__ 300 2) 1%Z "a" None ["row a"] s1) as [Hfresh Hstale].
  { apply NoDup_nil_2. }
  { reflexivity. }
  split; [reflexivity|]. split; [|split].
  - apply (Hfresh 5%Z). simpl. lia.
  - destruct (Hstale 301%Z) as (s2 & Hget & Hmiss & _ & _ & _ & Hsize); [simpl; lia|].
    exists s2. split; [exact Hget|]. split; [exact Hmiss|exact Hsize].
  - apply (Habsent s1 5%Z "b" None). reflexivity.
Defined.



(** C2 fails on a cache of capacity 0: the first [set] finds
    [len(self.cache) >= self.max_size], has no entry to evict, and raises
    the [ValueError] of [min] instead of evicting and inserting. *)
Lemma set_on_zero_capacity_raises :
  QueryCache.max_size (QueryCache.__init__ (result:=list string) 300 0)
    ≤ length (QueryCache.cache (QueryCache.__init__ (result:=list string) 300 0))
  ∧ QueryCache.set (PyLib0:=plain_keys) 1 "a" None ["row a"] (QueryCache.__init__ 300 0)
    = Raise (ValueError "min() arg is an empty sequence") (QueryCache.__init__ 300 0)
  ∧ QueryCache.evictions
      (state_of (QueryCache.set (PyLib0:=plain_keys) 1 "a" None ["row a"]
                   (QueryCache.__init__ 300 0)))
    ≠ QueryCache.evictions (QueryCache.__init__ (result:=list string) 300 0) + 1
  ∧ QueryCache.cache
      (state_of (QueryCache.set (PyLib0:=plain_keys) 1 "a" None ["row a"]
                   (QueryCache.__init__ 300 0)))
    = [].
Proof. split; [simpl; lia|]. split; [reflexivity|]. split; [simpl; lia|reflexivity]. Qed.


End witnesses.

(** * More properties of the connection pool *)

Section pool_session_facts.
Import ConnectionPool.

Lemma close_all_fields s :
  in_use (close_all s) = []
  ∧ available (close_all s) = Queue.mk (Queue.maxsize (available s)) []
  ∧ max_connections (close_all s) = max_connections s
  ∧ min_connections (close_all s) = min_connections s
  ∧ total_created (close_all s) = total_created s
  ∧ total_requests (close_all s) = total_requests s
  ∧ total_hits (close_all s) = total_hits s
  ∧ total_misses (close_all s) = total_misses s.
Proof. by split_and!. Qed.

Lemma close_all_inv s : inv s → inv (close_all s).
Proof.
  intros [Hnd Hmax Hbound Hlive]. split; simpl.
  - apply NoDup_nil_2.
  - done.
  - unfold Queue.qsize. simpl. lia.
  - intros c Hc. by apply elem_of_nil in Hc.
Qed.

Lemma session_step_inv s c : inv s → inv (PoolSession.step s c).
Proof.
  destruct c; simpl; unfold PooledConnection_close;
    auto using get_connection_inv, release_connection_inv, close_all_inv.
Qed.

Lemma session_reachable_inv s : PoolSession.reachable s → inv s.
Proof.
  intros Hr. induction Hr as [clk path min max timeout max_age s0 Hle Hinit|s c Hr IH].
  - destruct (pool_init_inv clk path min max timeout max_age Hle) as (s1 & Hs1 & Hinv & _).
    congruence.
  - by apply session_step_inv.
Qed.

(** Closing the connection of some handles one after the other. *)
Lemma lookup_close_each (o : gmap nat PooledConnection.t) (l : list nat) (c : nat) :
  foldl (λ o c, alter PooledConnection.connection_close c o) o l !! c =
    if bool_decide (c ∈ l)
    then (λ pc, PooledConnection.mk PooledConnection.Closed
                  (PooledConnection.created_at pc) (PooledConnection.last_used pc)
                  (PooledConnection.in_use pc)) <$> o !! c
    else o !! c.
Proof.
  revert o. induction l as [|x l IH]; intros o; simpl; [done|].
  rewrite IH. destruct (decide (c = x)) as [->|Hne].
  - rewrite lookup_alter_eq. rewrite (bool_decide_eq_true_2 (x ∈ x :: l)) by by left.
    case_bool_decide; destruct (o !! x); done.
  - rewrite lookup_alter_ne by done.
    case_bool_decide as Hl.
    + by rewrite bool_decide_eq_true_2 by by right.
    + rewrite bool_decide_eq_false_2; [done|]. by intros [?|?]%elem_of_cons.
Qed.

Lemma get_connection_in_use now tnew s conn s' :
  get_connection now tnew s = Return conn s' → in_use s' = in_use s ++ [conn].
Proof.
  unfold get_connection. simpl.
  destruct (Queue.get (timeout s) (available s)) as [e|[c q]].
  - destruct e; try done. destruct (_ <? _); [|done]. by intros [= <- <-].
  - unfold is_expired. simpl. destruct (from_option _ _ _); by intros [= <- <-].
Qed.

Lemma list_remove_first_snoc (x : nat) (l : list nat) :
  x ∉ l → list_remove_first x (l ++ [x]) = l.
Proof.
  induction l as [|y l IH]; intros Hx; simpl.
  - by rewrite bool_decide_eq_true_2.
  - apply not_elem_of_cons in Hx as [Hxy Hx].
    rewrite bool_decide_eq_false_2 by done. by rewrite IH.
Qed.

(** X1. The invariant of the pool in sessions with [close_all] and
    [handle.close()]: in every state such a session reaches, the available
    and the in-use handles are at most [max_connections], no handle is
    tracked twice or both available and in use, every tracked handle has an
    open connection, and its [in_use] flag is set exactly when it is in the
    [in_use] list. *)
Theorem session_keeps_pool_invariant s :
  PoolSession.reachable s →
  Queue.qsize (available s) + length (in_use s) ≤ max_connections s
  ∧ NoDup (Queue.queue (available s) ++ in_use s)
  ∧ (∀ c, c ∈ Queue.queue (available s) → c ∉ in_use s)
  ∧ (∀ c, c ∈ in_use s →
       ∃ pc, objects s !! c = Some pc
         ∧ PooledConnection.connection pc = PooledConnection.Open
         ∧ PooledConnection.in_use pc = true)
  ∧ (∀ c, c ∈ Queue.queue (available s) →
       ∃ pc, objects s !! c = Some pc
         ∧ PooledConnection.connection pc = PooledConnection.Open
         ∧ PooledConnection.in_use pc = false).
Proof.
  intros Hr. destruct (session_reachable_inv s Hr) as [Hnd Hmax Hbound Hlive].
  apply NoDup_app in Hnd as Hnd'. destruct Hnd' as (_ & Hdisj & _).
  split_and!; try done.
  - intros c Hc. destruct (Hlive c) as (pc & Hpc & Hopen & Hflag);
      [apply elem_of_app; by right|].
    exists pc. split_and!; try done. by rewrite Hflag, bool_decide_eq_true_2.
  - intros c Hc. destruct (Hlive c) as (pc & Hpc & Hopen & Hflag);
      [apply elem_of_app; by left|].
    exists pc. split_and!; try done. rewrite Hflag, bool_decide_eq_false_2; [done|].
    by apply Hdisj.
Qed.

(** X2. [close_all] empties [available] and [in_use], closes the connection
    of every handle that was in one of them, leaves every other object and
    every field of the closed ones but the connection as they were, and
    changes no counter; afterwards releasing any handle changes nothing,
    so a handle held across [close_all] never comes back into the queue. *)
Theorem close_all_closes_every_tracked_handle s :
  in_use (close_all s) = []
  ∧ Queue.queue (available (close_all s)) = []
  ∧ (∀ c pc, c ∈ Queue.queue (available s) ++ in_use s →
       objects s !! c = Some pc →
       objects (close_all s) !! c =
         Some (PooledConnection.mk PooledConnection.Closed
                 (PooledConnection.created_at pc) (PooledConnection.last_used pc)
                 (PooledConnection.in_use pc)))
  ∧ (∀ c, c ∉ Queue.queue (available s) ++ in_use s →
       objects (close_all s) !! c = objects s !! c)
  ∧ total_created (close_all s) = total_created s
  ∧ total_requests (close_all s) = total_requests s
  ∧ total_hits (close_all s) = total_hits s
  ∧ total_misses (close_all s) = total_misses s
  ∧ (∀ conn, release_connection conn (close_all s) = close_all s).
Proof.
  split_and!; try done.
  - intros c pc Hc Hpc. simpl. rewrite !lookup_close_each, Hpc.
    apply elem_of_app in Hc. repeat case_bool_decide; simpl; try done. tauto.
  - intros c Hc. apply not_elem_of_app in Hc as [Hq Hu]. simpl.
    rewrite !lookup_close_each. by repeat case_bool_decide.
Qed.

(** X3. A handle that [get_connection] returns, in any state a session
    reaches, was not in use before the call, has an open connection, is
    marked in use, and is either a newly created object or the handle that
    was first in the queue. *)
Theorem get_connection_hands_out_free_open_handle now tnew s conn s' :
  PoolSession.reachable s →
  get_connection now tnew s = Return conn s' →
  (conn ∉ in_use s)
  ∧ in_use s' = in_use s ++ [conn]
  ∧ (∃ pc, objects s' !! conn = Some pc
       ∧ PooledConnection.connection pc = PooledConnection.Open
       ∧ PooledConnection.in_use pc = true)
  ∧ ((conn ∉ dom (objects s))
     ∨ ∃ rest, Queue.queue (available s) = conn :: rest).
Proof.
  intros Hr Hget. pose proof (session_reachable_inv s Hr) as Hinv.
  pose proof (get_connection_inv now tnew s Hinv) as Hinv'. rewrite Hget in Hinv'.
  simpl in Hinv'. pose proof (get_connection_in_use _ _ _ _ _ Hget) as Huse.
  destruct Hinv' as [Hnd' _ _ Hlive']. rewrite Huse in Hnd', Hlive'.
  split_and!.
  - rewrite app_assoc in Hnd'. apply NoDup_app in Hnd' as (_ & Hdisj & _).
    intros Hin. apply (Hdisj conn); [apply elem_of_app; by right|].
    by apply list_elem_of_singleton.
  - done.
  - destruct (Hlive' conn) as (pc & Hpc & Hopen & Hflag).
    { rewrite app_assoc. apply elem_of_snoc. }
    exists pc. split_and!; try done. rewrite Hflag. apply bool_decide_eq_true_2, elem_of_snoc.
  - revert Hget. unfold get_connection. simpl.
    destruct (Queue.get (timeout s) (available s)) as [e|[c q]] eqn:Hq.
    + destruct e; try done. destruct (_ <? _); [|done]. intros [= <- <-].
      left. apply is_fresh.
    + destruct (queue_get_item _ _ _ _ Hq) as [Hqueue _].
      unfold is_expired. simpl. destruct (from_option _ _ _); intros [= <- <-].
      * left. simpl. rewrite dom_alter_L. apply is_fresh.
      * right. eauto.
Qed.

Lemma initialize_rounds_counters clk (l : list nat) (s s' : t) :
  foldl (λ acc i,
           s ← acc;
           let '(conn, s) := _create_connection (clk i) s in
           q ← Queue.put conn (available s);
           Some (with_available q s)) (Some s) l = Some s' →
  total_created s' = total_created s + length l
  ∧ total_requests s' = total_requests s
  ∧ total_hits s' = total_hits s
  ∧ total_misses s' = total_misses s
  ∧ min_connections s' = min_connections s.
Proof.
  revert s. induction l as [|i l IH]; intros s; simpl.
  - intros [= <-]. split_and!; lia.
  - destruct (Queue.put _ _) as [q|]; simpl.
    + intros Hfold. destruct (IH _ Hfold) as (Hc & Hr & Hh & Hm & Hmin).
      simpl in *. split_and!; lia.
    + intros Hfold. exfalso. clear IH. induction l as [|j l IHl]; simpl in Hfold; [done|auto].
Qed.

Lemma get_connection_counted now tnew s :
  PoolSession.counted s → PoolSession.counted (state_of (get_connection now tnew s)).
Proof.
  intros [Hc Hr]. unfold PoolSession.counted, get_connection. simpl.
  destruct (Queue.get (timeout s) (available s)) as [e|[c q]]; simpl.
  - destruct e; simpl; try lia. destruct (_ <? _); simpl; lia.
  - unfold is_expired. simpl. destruct (from_option _ _ _); simpl; lia.
Qed.

Lemma session_step_counted s c :
  PoolSession.counted s → PoolSession.counted (PoolSession.step s c).
Proof.
  intros Hs. destruct c as [now tnew|conn|conn|]; simpl.
  - by apply get_connection_counted.
  - destruct (release_connection_frame conn s) as (_ & Hc & Hr & Hh & Hm & _ & Hmin).
    simpl in *. unfold PoolSession.counted in *. lia.
  - unfold PooledConnection_close.
    destruct (release_connection_frame conn s) as (_ & Hc & Hr & Hh & Hm & _ & Hmin).
    simpl in *. unfold PoolSession.counted in *. lia.
  - done.
Qed.

Lemma session_reachable_counted s : PoolSession.reachable s → PoolSession.counted s.
Proof.
  intros Hr. induction Hr as [clk path min max timeout max_age s0 Hle Hinit|s c Hr IH].
  - unfold __init__, _initialize_pool in Hinit.
    apply initialize_rounds_counters in Hinit as (Hc & Hq & Hh & Hm & Hmin).
    simpl in *. rewrite length_seq in Hc. unfold PoolSession.counted. lia.
  - by apply session_step_counted.
Qed.

(** X4. The counters of a pool, in every state a session reaches: every
    connection beyond the initial [min_connections] was created by a miss
    ([total_created = min_connections + total_misses]), hits and misses
    together are at most the requests, and the hit rate that [get_stats]
    reports lies between 0 and 100. *)
Theorem pool_counters_add_up s :
  PoolSession.reachable s →
  total_created s = min_connections s + total_misses s
  ∧ total_hits s + total_misses s ≤ total_requests s
  ∧ Qle (inject_Z 0) (PoolSession.hit_rate s)
  ∧ Qle (PoolSession.hit_rate s) (inject_Z 100).
Proof.
  intros Hr. destruct (session_reachable_counted s Hr) as [Hc Hle].
  split_and!; try done; unfold PoolSession.hit_rate.
  - destruct (0 <? total_requests s); [|done].
    unfold Qle, Qmult, inject_Z. simpl. lia.
  - destruct (0 <? total_requests s) eqn:Hpos; [|done].
    apply Nat.ltb_lt in Hpos.
    unfold Qle, Qmult, inject_Z. simpl.
    assert (Z.pos (Pos.of_nat (total_requests s)) = Z.of_nat (total_requests s)) as Hz.
    { rewrite <-(Nat2Pos.id (total_requests s)) at 2 by lia. by rewrite positive_nat_Z. }
    rewrite Pos.mul_1_r, Hz. lia.
Qed.

(** X5. With a timeout that is not negative, [get_connection] on a state a
    session reaches returns a handle exactly when fewer than
    [max_connections] handles are in use, and raises [TimeoutError], having
    only counted the request, exactly when [max_connections] are. *)
Theorem get_connection_fails_only_when_all_in_use now tnew s :
  PoolSession.reachable s →
  (0 ≤ timeout s)%Z →
  (length (in_use s) < max_connections s →
     ∃ conn s', get_connection now tnew s = Return conn s'
       ∧ length (in_use s') = length (in_use s) + 1)
  ∧ (max_connections s ≤ length (in_use s) →
     length (in_use s) = max_connections s
     ∧ get_connection now tnew s =
         Raise (TimeoutError "No available connections in pool") (incr_total_requests s)).
Proof.
  intros Hr Htmo. destruct (session_reachable_inv s Hr) as [Hnd Hmax Hbound Hlive].
  unfold Queue.qsize in Hbound.
  assert (∀ conn s', get_connection now tnew s = Return conn s' →
            ∃ conn s', get_connection now tnew s = Return conn s'
              ∧ length (in_use s') = length (in_use s) + 1) as Hret.
  { intros conn s' Hget. exists conn, s'. split; [done|].
    rewrite (get_connection_in_use _ _ _ _ _ Hget), length_app. simpl. lia. }
  destruct (Queue.queue (available s)) as [|c rest] eqn:Hq.
  - assert (Queue.get (timeout s) (available s) = inl Empty) as Hget.
    { unfold Queue.get. rewrite bool_decide_eq_false_2 by lia. by rewrite Hq. }
    split.
    + intros Hlt. eapply Hret. apply get_connection_create; [done|].
      unfold Queue.qsize. rewrite Hq. simpl. lia.
    + intros Hge. simpl in Hbound. split; [lia|].
      apply get_connection_exhausted; [done|]. unfold Queue.qsize. rewrite Hq. simpl. lia.
  - assert (Queue.get (timeout s) (available s)
            = inr (c, Queue.mk (Queue.maxsize (available s)) rest)) as Hget.
    { unfold Queue.get. rewrite bool_decide_eq_false_2 by lia. by rewrite Hq. }
    simpl in Hbound. split; [|lia].
    intros _. destruct (is_expired now c s) eqn:Hexp.
    + eapply Hret. by apply get_connection_replace.
    + eapply Hret. by apply get_connection_reuse.
Qed.

(** X6. Release, then acquire: in a state a session reaches, with an empty
    queue and a timeout that is not negative, releasing a handle that is in
    use and has not passed [max_age] and then calling [get_connection]
    returns that same handle and counts a hit; the objects and the queue are
    as before the release, and [in_use] holds the same handles, the returned
    one last. *)
Theorem release_then_get_returns_same_handle now tnew s conn pc :
  PoolSession.reachable s →
  (0 ≤ timeout s)%Z →
  Queue.queue (available s) = [] →
  conn ∈ in_use s →
  objects s !! conn = Some pc →
  ¬ (max_age s < now - PooledConnection.created_at pc)%Z →
  ∃ s', get_connection now tnew (release_connection conn s) = Return conn s'
    ∧ objects s' = objects s
    ∧ available s' = available s
    ∧ in_use s' = list_remove_first conn (in_use s) ++ [conn]
    ∧ in_use s' ≡ₚ in_use s
    ∧ total_hits s' = total_hits s + 1
    ∧ total_misses s' = total_misses s
    ∧ total_created s' = total_created s
    ∧ total_requests s' = total_requests s + 1.
Proof.
  intros Hr Htmo Hq Hin Hpc Hyoung.
  pose proof (session_reachable_inv s Hr) as Hinv.
  pose proof (inv_not_full conn s Hinv Hin) as Hroom.
  destruct (inv_live s Hinv conn) as (pc' & Hpc' & Hopen & Hflag);
    [apply elem_of_app; by right|].
  assert (pc' = pc) as -> by congruence.
  rewrite bool_decide_eq_true_2 in Hflag by done.
  rewrite release_connection_requeue by done.
  eexists. split.
  - apply get_connection_reuse.
    + simpl. unfold Queue.get. simpl. rewrite bool_decide_eq_false_2 by lia.
      by rewrite Hq.
    + unfold is_expired. simpl. rewrite lookup_alter_eq, Hpc. simpl.
      unfold PooledConnection.is_expired. simpl. by apply bool_decide_eq_false_2.
  - simpl. split_and!; try done.
    + apply map_eq. intros i. destruct (decide (i = conn)) as [->|Hne].
      * rewrite !lookup_alter_eq, Hpc. simpl. destruct pc. simpl in *. by subst.
      * by rewrite !lookup_alter_ne.
    + destruct (available s). simpl in *. by subst.
    + rewrite (list_remove_first_perm conn (in_use s) Hin) at 2.
      by rewrite <-Permutation_cons_append.
Qed.

(** X7. Releasing every handle that is in use, one after the other as the
    callers of the pool do, leaves no handle in use and puts them at the
    end of the queue in the order they were released; the queue has room
    for all of them. *)
Theorem release_each_returns_all_handles s :
  PoolSession.reachable s →
  in_use (PoolSession.release_each (in_use s) s) = []
  ∧ Queue.queue (available (PoolSession.release_each (in_use s) s))
    = Queue.queue (available s) ++ in_use s
  ∧ ∀ c, c ∈ in_use s →
      ∃ pc, objects (PoolSession.release_each (in_use s) s) !! c = Some pc
        ∧ PooledConnection.connection pc = PooledConnection.Open
        ∧ PooledConnection.in_use pc = false.
Proof.
  intros Hr. pose proof (session_reachable_inv s Hr) as Hinv. clear Hr.
  assert (∀ l s, inv s → in_use s = l →
            in_use (PoolSession.release_each l s) = []
            ∧ Queue.queue (available (PoolSession.release_each l s))
              = Queue.queue (available s) ++ l
            ∧ inv (PoolSession.release_each l s)) as Hall.
  { clear s Hinv. induction l as [|c l IH]; intros s Hinv Huse; simpl.
    - split_and!; try done. by rewrite app_nil_r.
    - assert (c ∈ in_use s) as Hin by (rewrite Huse; by left).
      pose proof (inv_not_full c s Hinv Hin) as Hroom.
      pose proof (release_connection_inv c s Hinv) as Hinv1.
      destruct (IH (release_connection c s) Hinv1) as (Hu & Hq & Hi).
      { rewrite release_connection_requeue by done. simpl. rewrite Huse. simpl.
        by rewrite bool_decide_eq_true_2. }
      split_and!; try done. rewrite Hq, release_connection_requeue by done. simpl.
      by rewrite <-app_assoc. }
  destruct (Hall (in_use s) s Hinv eq_refl) as (Hu & Hq & Hi).
  split_and!; try done. intros c Hc.
  destruct (inv_live _ Hi c) as (pc & Hpc & Hopen & Hflag).
  { rewrite Hq, Hu, app_nil_r. apply elem_of_app. by right. }
  exists pc. split_and!; try done. rewrite Hflag, Hu. done.
Qed.

End pool_session_facts.

(** * More properties of the query cache *)

Section cache_session_facts.
Import QueryCache.
Context {param result : Type} `{!PyLib param}.
Implicit Types (s : QueryCache.t result) (q : string) (p : option (list param)).

Lemma get_counts_one now q p s :
  let s' := (get now q p s).2 in
  hits s' + misses s' = hits s + misses s + 1
  ∧ evictions s' = evictions s ∧ ttl s' = ttl s
  ∧ ((get now q p s).1 = None ↔ misses s' = misses s + 1).
Proof.
  simpl. unfold get. destruct (dict_get _ _) as [[tm v]|]; simpl.
  - case_bool_decide; simpl; split_and!; try lia; try done.
    split; [done|lia].
  - split_and!; try lia; done.
Qed.

Lemma set_counts now q p (r : result) s :
  let s' := state_of (set now q p r s) in
  hits s' = hits s ∧ misses s' = misses s ∧ ttl s' = ttl s
  ∧ (evictions s' = evictions s ∨ evictions s' = evictions s + 1).
Proof.
  simpl. unfold set, evict_oldest. destruct (_ <=? _); simpl; [|auto].
  destruct (py_min _ _); simpl; auto.
Qed.

Lemma invalidate_counts query p s :
  let s' := invalidate query p s in
  hits s' = hits s ∧ misses s' = misses s ∧ evictions s' = evictions s ∧ ttl s' = ttl s.
Proof.
  simpl. unfold invalidate. destruct query as [q|]; [|done].
  case_bool_decide; [|done]. by destruct (dict_contains _ _).
Qed.

(** X8. The counters of a cache over a run of calls without [clear]: every
    [get] counts exactly one hit or one miss, so [hits + misses], the
    [total_requests] of [get_stats], grows by the number of [get] calls, and
    nothing else changes the two; the eviction counter never goes down and
    grows by at most one for each [set]. *)
Theorem cache_counters_count_calls (cs : list (call param result)) s :
  Forall (λ c, CacheSession.is_clear c = false) cs →
  let s' := run cs s in
  stats_total_requests (get_stats s')
    = stats_total_requests (get_stats s)
      + length (filter (λ c, CacheSession.is_get c = true) cs)
  ∧ evictions s ≤ evictions s'
  ∧ evictions s' ≤ evictions s + length (filter (λ c, is_set c = true) cs).
Proof.
  induction cs as [|c cs IH] using rev_ind; intros Hcs; simpl.
  { split_and!; lia. }
  apply Forall_app in Hcs as [Hcs Hc]. apply (proj1 (Forall_singleton _ _)) in Hc.
  destruct (IH Hcs) as (Hreq & Hlo & Hhi). simpl in Hreq.
  rewrite cache_run_snoc, !filter_app, !length_app.
  destruct c as [now q p|now q p r|query p|]; try done; simpl.
  - destruct (get_counts_one now q p (run cs s)) as (Hn & He & _). simpl in Hn.
    rewrite He. lia.
  - destruct (set_counts now q p r (run cs s)) as (Hh & Hm & _ & He).
    rewrite Hh, Hm. lia.
  - destruct (invalidate_counts query p (run cs s)) as (Hh & Hm & He & _).
    rewrite Hh, Hm, He. lia.
Qed.

Lemma get_keeps_or_drops now q p s k :
  dict_wf (cache s) →
  dict_wf (cache (get now q p s).2)
  ∧ (dict_get k (cache (get now q p s).2) = dict_get k (cache s)
     ∨ dict_get k (cache (get now q p s).2) = None).
Proof.
  intros Hwf. unfold get. destruct (dict_get (_generate_key q p) (cache s)) as [[tm v]|];
    simpl; [|auto].
  case_bool_decide; simpl; [auto|]. split; [by apply dict_del_wf|].
  destruct (decide (k = _generate_key q p)) as [->|Hne].
  - right. by apply dict_get_del_eq.
  - left. by apply dict_get_del_ne.
Qed.

(** X9. Reading does not extend the life of an entry: after [set(q, p, v)]
    at clock reading [now], whatever [get] calls follow (on this key or on
    others, at whatever times), a [get(q, p)] at a reading [now'] with
    [now' - now >= ttl] returns nothing.  The time to live runs from the
    write, not from the last read. *)
Theorem reads_do_not_extend_ttl s now q p (v : result) s1
    (gets : list (call param result)) now' :
  dict_wf (cache s) →
  set now q p v s = Return () s1 →
  Forall (λ c, CacheSession.is_get c = true) gets →
  ¬ (now' - now < ttl s)%Z →
  (get now' q p (run gets s1)).1 = None.
Proof.
  intros Hwf Hset Hgets Hstale.
  destruct (set_Return _ _ _ _ _ _ Hset) as (Hget & Httl & _ & _ & Hwf1).
  specialize (Hwf1 Hwf).
  assert (dict_wf (cache (run gets s1))
          ∧ ttl (run gets s1) = ttl s
          ∧ (dict_get (_generate_key q p) (cache (run gets s1)) = Some (now, v)
             ∨ dict_get (_generate_key q p) (cache (run gets s1)) = None)) as (_ & Ht & Hentry).
  { induction gets as [|c gets IH] using rev_ind; [auto|].
    apply Forall_app in Hgets as [Hgets Hc]. apply (proj1 (Forall_singleton _ _)) in Hc.
    destruct (IH Hgets) as (Hw & Ht & Hentry). rewrite cache_run_snoc.
    destruct c as [t q' p'| | |]; try done. simpl.
    destruct (get_keeps_or_drops t q' p' (run gets s1) (_generate_key q p) Hw) as [Hw' Hk].
    destruct (get_counts_one t q' p' (run gets s1)) as (_ & _ & Ht' & _). simpl in Ht'.
    split_and!; [done|congruence|]. destruct Hk as [Hk|Hk]; [|by right].
    rewrite Hk. done. }
  unfold get. destruct Hentry as [-> | ->]; [|done].
  rewrite Ht. by rewrite bool_decide_eq_false_2.
Qed.

(** X10. Eviction takes an expired entry first: the entry a [set] evicts
    from a full cache is past its time to live at a clock reading whenever
    any entry of the cache is; a live entry is evicted only when every entry
    is live. *)
Theorem eviction_takes_expired_entry_first s now q p (r : result) :
  1 ≤ max_size s →
  max_size s ≤ length (cache s) →
  ∃ oldest_key tm v,
    dict_get oldest_key (cache s) = Some (tm, v)
    ∧ set now q p r s =
        Return () (store now (_generate_key q p) r
                     (mk (ttl s) (max_size s) (dict_del oldest_key (cache s))
                         (hits s) (misses s) (evictions s + 1)))
    ∧ (∀ t, (∃ k tm' v', dict_get k (cache s) = Some (tm', v')
                         ∧ CacheSession.expired s t tm') →
            CacheSession.expired s t tm)
    ∧ (∀ t, ¬ CacheSession.expired s t tm →
            ∀ k tm' v', dict_get k (cache s) = Some (tm', v') →
                        ¬ CacheSession.expired s t tm').
Proof.
  intros Hmax Hge.
  destruct (oldest_key_exists (cache s)) as (oldest & tm & v & Hmin & Hold & Hleast).
  { destruct (cache s); [simpl in Hge; lia|done]. }
  exists oldest, tm, v. split; [done|]. split; [by apply set_evicting|].
  unfold CacheSession.expired. split.
  - intros t (k & tm' & v' & Hk & Hexp). specialize (Hleast k tm' v' Hk). lia.
  - intros t Hlive k tm' v' Hk. specialize (Hleast k tm' v' Hk). lia.
Qed.

(** X11. After an invalidation the next lookup misses: [get(q, p)] right
    after [invalidate(q, p)] with a query returns nothing and counts a miss,
    and so does every [get] right after [invalidate()] without a query,
    [clear()], [CacheStrategy.invalidate_on_write] or
    [CacheStrategy.invalidate_pattern], whatever table or pattern they are
    given. *)
Theorem get_after_invalidation_misses s now q p :
  dict_wf (cache s) →
  (q ≠ EmptyString →
     get now q p (invalidate (Some q) p s) =
       (None, mk (ttl s) (max_size s) (dict_del (_generate_key q p) (cache s))
                 (hits s) (misses s + 1) (evictions s)))
  ∧ (∀ p', get now q p (invalidate None p' s) =
             (None, mk (ttl s) (max_size s) [] (hits s) (misses s + 1) (evictions s)))
  ∧ get now q p (clear s) = (None, mk (ttl s) (max_size s) [] 0 1 0)
  ∧ (∀ table_name, get now q p (CacheStrategy.invalidate_on_write s table_name) =
                     (None, mk (ttl s) (max_size s) [] 0 1 0))
  ∧ (∀ pattern, get now q p (CacheStrategy.invalidate_pattern s pattern) =
                  (None, mk (ttl s) (max_size s) [] 0 1 0)).
Proof.
  intros Hwf. split_and!; try done.
  intros Hq. unfold invalidate. rewrite bool_decide_eq_true_2 by done.
  unfold dict_contains. case_bool_decide as Hin.
  - unfold get. simpl. by rewrite dict_get_del_eq.
  - assert (dict_get (_generate_key q p) (cache s) = None) as Habs.
    { destruct (dict_get _ _) eqn:Hk; [|done]. exfalso. apply Hin. eauto. }
    unfold get. rewrite Habs. do 2 f_equal.
    clear Hin. revert Habs. generalize (_generate_key q p). intros k.
    induction (cache s) as [|[k' e] d IH]; simpl; [done|].
    case_bool_decide; [done|]. intros Hk. f_equal. apply IH; [|done].
    unfold dict_wf in *. simpl in Hwf. by apply NoDup_cons in Hwf as [_ ?].
Qed.

End cache_session_facts.

(** * Properties of the cache manager *)

Section cache_manager_facts.
Context {result : Type}.
Implicit Types (caches : gmap string (QueryCache.t result)) (name : string).

Lemma lookup_foldr_alter (f : QueryCache.t result → QueryCache.t result)
    (l : list (string * QueryCache.t result)) caches name :
  NoDup l.*1 →
  foldr (λ entry acc, alter f entry.1 acc) caches l !! name =
    if bool_decide (name ∈ l.*1) then f <$> caches !! name else caches !! name.
Proof.
  induction l as [|[k c] l IH]; simpl; [done|].
  rewrite NoDup_cons. intros [Hk Hnd]. destruct (decide (name = k)) as [->|Hne].
  - rewrite lookup_alter_eq, (IH Hnd).
    rewrite (bool_decide_eq_false_2 (k ∈ l.*1)) by done.
    by rewrite bool_decide_eq_true_2 by by left.
  - rewrite lookup_alter_ne by done. rewrite (IH Hnd).
    apply (f_equal (λ b : bool, if b then _ else _)). apply bool_decide_ext.
    rewrite elem_of_cons. split; [by right|by intros [?|?]].
Qed.

Lemma lookup_foldr_insert {B} (g : QueryCache.t result → B)
    (l : list (string * QueryCache.t result)) name :
  NoDup l.*1 →
  (∀ c, (name, c) ∈ l →
     foldr (λ entry acc, <[entry.1 := g entry.2]> acc) (∅ : gmap string B) l !! name
     = Some (g c))
  ∧ (name ∉ l.*1 →
     foldr (λ entry acc, <[entry.1 := g entry.2]> acc) (∅ : gmap string B) l !! name = None).
Proof.
  induction l as [|[k c] l IH]; simpl.
  - intros _. split; [by intros c Hc%elem_of_nil|done].
  - rewrite NoDup_cons. intros [Hk Hnd]. destruct (IH Hnd) as [IH1 IH2]. split.
    + intros c' [[= -> ->]|Hin]%elem_of_cons; [by rewrite lookup_insert_eq|].
      rewrite lookup_insert_ne; [by apply IH1|].
      intros ->. apply Hk. apply list_elem_of_fmap. by exists (name, c').
    + intros [Hne Hnot]%not_elem_of_cons. rewrite lookup_insert_ne by done. by apply IH2.
Qed.

Lemma get_all_stats_lookup caches name :
  CacheManager.get_all_stats caches !! name = QueryCache.get_stats <$> caches !! name.
Proof.
  unfold CacheManager.get_all_stats.
  destruct (lookup_foldr_insert QueryCache.get_stats (map_to_list caches) name)
    as [Hin Hout]; [apply NoDup_fst_map_to_list|].
  destruct (caches !! name) as [c|] eqn:Hc; simpl.
  - apply Hin. by apply elem_of_map_to_list.
  - apply Hout. intros ([k c] & -> & Hkc)%list_elem_of_fmap.
    apply elem_of_map_to_list in Hkc. simpl in Hc. congruence.
Qed.

Lemma clear_all_lookup caches name :
  CacheManager.clear_all caches !! name = QueryCache.clear <$> caches !! name.
Proof.
  unfold CacheManager.clear_all.
  rewrite lookup_foldr_alter by apply NoDup_fst_map_to_list.
  case_bool_decide as Hin; [done|].
  destruct (caches !! name) as [c|] eqn:Hc; [|done].
  exfalso. apply Hin. apply list_elem_of_fmap. exists (name, c).
  split; [done|]. by apply elem_of_map_to_list.
Qed.

(** X12. The cache manager: [clear_all] clears every cache it manages and
    keeps their names, so that [get_all_stats] afterwards reports for every
    cache no entries and zero hits, misses and evictions, with the [ttl]
    and [max_size] it was created with; [get_all_stats] reports the
    statistics of each cache under its name; [clear_cache] clears the named
    cache only, and changes nothing when there is no cache of that name. *)
Theorem clear_all_clears_every_cache caches name :
  CacheManager.get_cache name (CacheManager.clear_all caches)
    = QueryCache.clear <$> CacheManager.get_cache name caches
  ∧ CacheManager.get_all_stats caches !! name
    = QueryCache.get_stats <$> CacheManager.get_cache name caches
  ∧ (∀ st, CacheManager.get_all_stats (CacheManager.clear_all caches) !! name = Some st →
       ∃ c, CacheManager.get_cache name caches = Some c
         ∧ st = QueryCache.mk_stats 0 (QueryCache.max_size c) (QueryCache.ttl c) 0 0 0 0)
  ∧ (∀ name', CacheManager.get_cache name' (CacheManager.clear_cache name caches)
       = if bool_decide (name' = name)
         then QueryCache.clear <$> CacheManager.get_cache name' caches
         else CacheManager.get_cache name' caches)
  ∧ (CacheManager.get_cache name caches = None →
       CacheManager.clear_cache name caches = caches).
Proof.
  unfold CacheManager.get_cache. split_and!.
  - apply clear_all_lookup.
  - apply get_all_stats_lookup.
  - intros st. rewrite get_all_stats_lookup, clear_all_lookup.
    destruct (caches !! name) as [c|]; [|done]. simpl. intros [= <-]. by exists c.
  - intros name'. unfold CacheManager.clear_cache.
    case_bool_decide as Hin; case_bool_decide as Heq; subst.
    + apply lookup_alter_eq.
    + by rewrite lookup_alter_ne.
    + destruct (caches !! name) eqn:Hc; [|done]. exfalso. apply Hin. eauto.
    + done.
  - intros Hnone. unfold CacheManager.clear_cache. rewrite Hnone.
    rewrite bool_decide_eq_false_2; [done|]. by intros [? ?].
Qed.

End cache_manager_facts.

(** * More properties of the query analyzer *)

Section analyzer_ops_facts.
Import QueryAnalyzer QueryAnalyzerOps.
Context {param row drow : Type} `{!PyDict row drow}.
Implicit Types (s : QueryAnalyzer.t param drow)
               (connection : Connection (param:=param) (row:=row)).

Lemma analyze_query_classified connection t0 t1 t2 q p s :
  classified s →
  classified (state_of (analyze_query connection t0 t1 t2 q p s))
  ∧ slow_query_threshold (state_of (analyze_query connection t0 t1 t2 q p s))
    = slow_query_threshold s.
Proof.
  intros [Hslow Hall]. unfold analyze_query, classified.
  destruct (connection q (default [] p)) as [e|results]; simpl; [done|].
  destruct (dict_rows _) as [e|plan]; simpl; [done|].
  case_bool_decide as Hs; simpl.
  - split; [|done]. split.
    + rewrite filter_app, Hslow. done.
    + apply Forall_app. split; [done|]. apply Forall_singleton. simpl.
      by rewrite !bool_decide_eq_true_2.
  - split; [|done]. split.
    + rewrite filter_app, Hslow. simpl. by rewrite app_nil_r.
    + apply Forall_app. split; [done|]. apply Forall_singleton. simpl.
      by rewrite !bool_decide_eq_false_2.
Qed.

Lemma compare_queries_state connection clk1 clk2 q1 q2 p1 p2 s :
  state_of (compare_queries connection clk1 clk2 q1 q2 p1 p2 s) =
    match analyze_query connection (start_time clk1) (end_time clk1) (stamp clk1) q1 p1 s with
    | Raise _ s1 => s1
    | Return _ s1 =>
        state_of (analyze_query connection (start_time clk2) (end_time clk2) (stamp clk2)
                    q2 p2 s1)
    end.
Proof.
  unfold compare_queries. destruct (analyze_query _ _ _ _ q1 _ _) as [r1 s1|e s1]; [|done].
  by destruct (analyze_query _ _ _ _ q2 _ _).
Qed.

Lemma step_classified s (c : call param row) :
  classified s →
  classified (step s c) ∧ slow_query_threshold (step s c) = slow_query_threshold s.
Proof.
  intros Hs. destruct c as [connection clk q p|connection clk1 clk2 q1 q2 p1 p2|]; simpl.
  - by apply analyze_query_classified.
  - rewrite compare_queries_state.
    pose proof (analyze_query_classified connection (start_time clk1) (end_time clk1)
                  (stamp clk1) q1 p1 s Hs) as [H1 Ht1].
    destruct (analyze_query _ _ _ _ q1 _ _) as [r1 s1|e s1]; simpl in *; [|done].
    destruct (analyze_query_classified connection (start_time clk2) (end_time clk2)
                (stamp clk2) q2 p2 s1 H1) as [H2 Ht2].
    split; [done|congruence].
  - split; [|done]. split; simpl; [done|apply Forall_nil_2].
Qed.

Lemma run_classified threshold (cs : list (call param row)) :
  classified (run cs (__init__ threshold))
  ∧ slow_query_threshold (run cs (__init__ threshold)) = threshold.
Proof.
  induction cs as [|c cs IH] using rev_ind.
  - split; [|done]. split; simpl; [done|apply Forall_nil_2].
  - unfold run in *. rewrite foldl_app. simpl. destruct IH as [IH Ht].
    destruct (step_classified _ c IH) as [H1 H2]. split; [done|congruence].
Qed.

(** X13. In every state the analyzer reaches from its construction through
    [analyze_query], [compare_queries] and [reset_stats], the slow list is
    the sequence of the records of the history that are marked slow, in
    their order, a record is marked slow exactly when its execution time
    exceeds the threshold, and the threshold is the one the analyzer was
    built with. *)
Theorem slow_list_is_slow_part_of_history threshold (cs : list (call param row)) :
  let s := run cs (__init__ threshold) in
  slow_query_threshold s = threshold
  ∧ get_slow_queries s = filter (λ a, is_slow a = true) (query_history s)
  ∧ (∀ a, a ∈ query_history s → (is_slow a = true ↔ (threshold < execution_time a)%Z))
  ∧ length (get_slow_queries s) ≤ length (query_history s).
Proof.
  simpl. destruct (run_classified threshold cs) as [[Hslow Hall] Ht].
  unfold get_slow_queries. split_and!; try done.
  - intros a Ha. rewrite Forall_forall in Hall. rewrite (Hall a Ha), Ht.
    by rewrite bool_decide_eq_true.
  - rewrite Hslow. apply length_filter.
Qed.

Lemma foldr_min_spec (x : Z) (l : list Z) :
  (foldr Z.min x l ≤ x)%Z
  ∧ (∀ y, y ∈ l → (foldr Z.min x l ≤ y)%Z)
  ∧ foldr Z.min x l ∈ x :: l.
Proof.
  induction l as [|z l (IH1 & IH2 & IH3)]; simpl.
  - split_and!; [lia| |by left]. intros y Hy. by apply elem_of_nil in Hy.
  - split_and!; [lia| |].
    + intros y [->|Hy]%elem_of_cons; [lia|]. specialize (IH2 y Hy). lia.
    + destruct (Z.min_spec z (foldr Z.min x l)) as [[_ ->]|[_ ->]].
      * right. by left.
      * apply elem_of_cons in IH3 as [->|?]; [by left|]. right. by right.
Qed.

Lemma foldr_max_spec (x : Z) (l : list Z) :
  (x ≤ foldr Z.max x l)%Z
  ∧ (∀ y, y ∈ l → (y ≤ foldr Z.max x l)%Z)
  ∧ foldr Z.max x l ∈ x :: l.
Proof.
  induction l as [|z l (IH1 & IH2 & IH3)]; simpl.
  - split_and!; [lia| |by left]. intros y Hy. by apply elem_of_nil in Hy.
  - split_and!; [lia| |].
    + intros y [->|Hy]%elem_of_cons; [lia|]. specialize (IH2 y Hy). lia.
    + destruct (Z.max_spec z (foldr Z.max x l)) as [[_ ->]|[_ ->]].
      * apply elem_of_cons in IH3 as [->|?]; [by left|]. right. by right.
      * right. by left.
Qed.

Lemma foldr_add_bounds (lo hi : Z) (l : list Z) :
  (∀ y, y ∈ l → (lo ≤ y ≤ hi)%Z) →
  (lo * Z.of_nat (length l) ≤ foldr Z.add 0 l ≤ hi * Z.of_nat (length l))%Z.
Proof.
  induction l as [|z l IH]; intros Hall; simpl; [lia|].
  assert (lo ≤ z ≤ hi)%Z by (apply Hall; by left).
  assert (lo * Z.of_nat (length l) ≤ foldr Z.add 0 l ≤ hi * Z.of_nat (length l))%Z
    by (apply IH; intros y Hy; apply Hall; by right).
  lia.
Qed.

Lemma pos_of_nat_Z (n : nat) : 0 < n → Z.pos (Pos.of_nat n) = Z.of_nat n.
Proof. intros Hn. rewrite <-(Nat2Pos.id n) at 2 by lia. by rewrite positive_nat_Z. Qed.

(** X14. On a history that is not empty [get_query_stats] reports the number
    of records, a minimum and a maximum execution time that are the
    execution times of records of the history and bound those of all
    records, and an average that lies between the two. *)
Theorem query_stats_min_avg_max s :
  query_history s ≠ [] →
  ∃ lo hi avg,
    get_query_stats s !! "total_queries" = Some (SInt (Z.of_nat (length (query_history s))))
    ∧ get_query_stats s !! "slow_queries" = Some (SInt (Z.of_nat (length (slow_queries s))))
    ∧ get_query_stats s !! "min_execution_time" = Some (SSeconds (inject_Z lo))
    ∧ get_query_stats s !! "max_execution_time" = Some (SSeconds (inject_Z hi))
    ∧ get_query_stats s !! "avg_execution_time" = Some (SSeconds avg)
    ∧ (∀ a, a ∈ query_history s → (lo ≤ execution_time a ≤ hi)%Z)
    ∧ (∃ a, a ∈ query_history s ∧ execution_time a = lo)
    ∧ (∃ a, a ∈ query_history s ∧ execution_time a = hi)
    ∧ Qle (inject_Z lo) avg
    ∧ Qle avg (inject_Z hi).
Proof.
  intros Hne. unfold get_query_stats.
  destruct (query_history s) as [|a h] eqn:Hh; [done|]. clear Hne.
  set (times := execution_time <$> a :: h).
  destruct (foldr_min_spec (execution_time a) times) as (_ & Hlo & Hlo_in).
  destruct (foldr_max_spec (execution_time a) times) as (_ & Hhi & Hhi_in).
  assert (∀ b, b ∈ a :: h → execution_time b ∈ times) as Htimes.
  { intros b Hb. apply list_elem_of_fmap. by exists b. }
  assert (∀ t, t ∈ execution_time a :: times → ∃ b, b ∈ a :: h ∧ execution_time b = t)
    as Hrec.
  { intros t [->|Ht]%elem_of_cons; [exists a; split; [by left|done]|].
    apply list_elem_of_fmap in Ht as (b & -> & Hb). by exists b. }
  eexists _, _, _. split_and!.
  - simpl. by rewrite lookup_insert_eq.
  - simpl. rewrite lookup_insert_ne by done. by rewrite lookup_insert_eq.
  - simpl. do 4 (rewrite lookup_insert_ne by done). by rewrite lookup_insert_eq.
  - simpl. do 5 (rewrite lookup_insert_ne by done). by rewrite lookup_insert_eq.
  - simpl. do 3 (rewrite lookup_insert_ne by done). by rewrite lookup_insert_eq.
  - intros b Hb. split; [apply Hlo|apply Hhi]; by apply Htimes.
  - by apply Hrec.
  - by apply Hrec.
  - pose proof (foldr_add_bounds (foldr Z.min (execution_time a) times)
                  (foldr Z.max (execution_time a) times) times) as Hsum.
    assert (∀ y, y ∈ times → (foldr Z.min (execution_time a) times ≤ y
                               ≤ foldr Z.max (execution_time a) times)%Z) as Hall
      by (intros y Hy; split; [by apply Hlo|by apply Hhi]).
    specialize (Hsum Hall). clear -Hsum. subst times.
    unfold Qle. cbn [Qnum Qden inject_Z]. simpl in *.
    rewrite (pos_of_nat_Z (S _)) by lia. lia.
  - pose proof (foldr_add_bounds (foldr Z.min (execution_time a) times)
                  (foldr Z.max (execution_time a) times) times) as Hsum.
    assert (∀ y, y ∈ times → (foldr Z.min (execution_time a) times ≤ y
                               ≤ foldr Z.max (execution_time a) times)%Z) as Hall
      by (intros y Hy; split; [by apply Hlo|by apply Hhi]).
    specialize (Hsum Hall). clear -Hsum. subst times.
    unfold Qle. cbn [Qnum Qden inject_Z]. simpl in *.
    rewrite (pos_of_nat_Z (S _)) by lia. lia.
Qed.

(** X15. In every state the analyzer reaches from its construction, when the
    history is not empty the slow percentage that [get_query_stats] reports
    lies between 0 and 100. *)
Theorem slow_query_percentage_in_range threshold (cs : list (call param row)) :
  let s := run cs (__init__ threshold) in
  query_history s ≠ [] →
  ∃ pct, get_query_stats s !! "slow_query_percentage" = Some (SPercent pct)
    ∧ Qle (inject_Z 0) pct
    ∧ Qle pct (inject_Z 100).
Proof.
  simpl. intros Hne. destruct (run_classified threshold cs) as [[Hslow _] _].
  pose proof (length_filter (λ a, is_slow a = true)
                (query_history (run cs (__init__ threshold)))) as Hlen.
  rewrite <-Hslow in Hlen. clear Hslow.
  unfold get_query_stats.
  destruct (query_history (run cs (__init__ threshold))) as [|a h] eqn:Hh; [done|].
  eexists. split_and!.
  - simpl. do 2 (rewrite lookup_insert_ne by done). by rewrite lookup_insert_eq.
  - unfold Qle, ratio. simpl. lia.
  - unfold Qle, ratio. simpl in *.
    assert (Z.pos (Pos.of_succ_nat (length h)) = Z.of_nat (S (length h))) as Hz by lia.
    rewrite Pos.mul_1_r. lia.
Qed.

Lemma analyze_query_plan_rows connection t0 t1 t2 q p s :
  analyze_query connection t0 t1 t2 q p s =
    match connection q (default [] p) with
    | inl e => Raise e s
    | inr results =>
        match dict_rows (plan_rows connection q p) with
        | inl e => Raise e s
        | inr plan =>
            let a := mk_analysis q p (t1 - t0) (length results)
                       (bool_decide (slow_query_threshold s < t1 - t0)%Z) plan t2 in
            Return (results, a)
              (mk (slow_query_threshold s) (query_history s ++ [a])
                  (if is_slow a then slow_queries s ++ [a] else slow_queries s))
        end
    end.
Proof.
  unfold analyze_query, plan_rows.
  destruct (connection q (default [] p)) as [e|results]; [done|].
  destruct (dict_rows _) as [e|plan]; [done|]. simpl. by case_bool_decide.
Qed.


Lemma compare_queries_Return connection clk1 clk2 q1 q2 p1 p2 s cmp s' :
  compare_queries connection clk1 clk2 q1 q2 p1 p2 s = Return cmp s' →
  speedup cmp =
    (if bool_decide (0 < end_time clk2 - start_time clk2)%Z
     then Qdiv (inject_Z (end_time clk1 - start_time clk1))
               (inject_Z (end_time clk2 - start_time clk2))
     else inject_Z 0)
  ∧ faster cmp =
      (if bool_decide (end_time clk2 - start_time clk2 < end_time clk1 - start_time clk1)%Z
       then "query2" else "query1").
Proof.
  unfold compare_queries. rewrite analyze_query_plan_rows.
  destruct (connection q1 (default [] p1)) as [e1|rows1]; [done|].
  destruct (dict_rows (plan_rows connection q1 p1)) as [e1|plan1]; [done|]. simpl.
  rewrite analyze_query_plan_rows.
  destruct (connection q2 (default [] p2)) as [e2|rows2]; [done|].
  destruct (dict_rows (plan_rows connection q2 p2)) as [e2|plan2]; [done|]. simpl.
  by intros [= <- _].
Qed.

Lemma Qdiv_gt_1 (a b : Z) :
  (0 < b)%Z → (Qlt (inject_Z 1) (Qdiv (inject_Z a) (inject_Z b)) ↔ (b < a)%Z).
Proof.
  intros Hb. destruct b as [|b|b]; try lia.
  unfold Qlt, Qdiv, Qmult, Qinv, inject_Z. simpl. lia.
Qed.

Lemma Qdiv_mul_cancel (a b : Z) :
  (0 < b)%Z → Qeq (Qmult (Qdiv (inject_Z a) (inject_Z b)) (inject_Z b)) (inject_Z a).
Proof.
  intros Hb. destruct b as [|b|b]; try lia.
  unfold Qeq, Qdiv, Qmult, Qinv, inject_Z. simpl. lia.
Qed.

(** X17. The verdict of [compare_queries], with [time1] and [time2] the
    measured execution times: query 2 is reported faster exactly when
    [time2 < time1], query 1 otherwise (also on a tie); the speedup is 0
    when [time2] is not positive, and [time1 / time2] otherwise, in which
    case it exceeds 1 exactly when query 2 is reported faster. *)
Theorem compare_queries_verdict connection clk1 clk2 q1 q2 p1 p2 s cmp s' :
  compare_queries connection clk1 clk2 q1 q2 p1 p2 s = Return cmp s' →
  let time1 := (end_time clk1 - start_time clk1)%Z in
  let time2 := (end_time clk2 - start_time clk2)%Z in
  (faster cmp = "query2" ↔ (time2 < time1)%Z)
  ∧ (faster cmp = "query1" ↔ (time1 ≤ time2)%Z)
  ∧ ((time2 ≤ 0)%Z → speedup cmp = inject_Z 0)
  ∧ ((0 < time2)%Z →
       Qeq (Qmult (speedup cmp) (inject_Z time2)) (inject_Z time1)
       ∧ (Qlt (inject_Z 1) (speedup cmp) ↔ faster cmp = "query2")).
Proof.
  intros Hcmp. simpl. destruct (compare_queries_Return _ _ _ _ _ _ _ _ _ _ Hcmp) as [-> ->].
  split_and!.
  - case_bool_decide; split; try done; lia.
  - case_bool_decide; split; try done; lia.
  - intros Hle. by rewrite bool_decide_eq_false_2 by lia.
  - intros Hpos. rewrite (bool_decide_eq_true_2 (0 < _)%Z) by done. split.
    + by apply Qdiv_mul_cancel.
    + rewrite Qdiv_gt_1 by done. case_bool_decide; split; try done; lia.
Qed.

(** X18. The plan in [analyze_query] and in [explain_query], for a query
    the engine executes.  When the engine raises on the EXPLAIN statement,
    [analyze_query] still returns and records the query with an empty plan,
    and [explain_query] returns its error dictionary with the message of the
    exception.  When the EXPLAIN statement gives rows that convert to
    dictionaries, [analyze_query] records them as the plan and
    [explain_query] returns them.  When [dict] raises on a row of the plan,
    [explain_query] again returns its error dictionary, but [analyze_query]
    raises that exception and records nothing: the conversion is outside
    its [try]. *)
Theorem analyze_query_records_explained_plan connection t0 t1 t2 q p s results :
  connection q (default [] p) = inr results →
  (∀ e, connection ("EXPLAIN QUERY PLAN " +:+ q) (default [] p) = inl e →
     explain_query connection q p = Error (exn_str e)
     ∧ ∃ a s', analyze_query connection t0 t1 t2 q p s = Return (results, a) s'
         ∧ query_plan a = []
         ∧ query_history s' = query_history s ++ [a])
  ∧ (∀ plan dicts,
       connection ("EXPLAIN QUERY PLAN " +:+ q) (default [] p) = inr plan →
       dict_rows plan = inr dicts →
       explain_query connection q p = Plan q dicts
       ∧ ∃ a s', analyze_query connection t0 t1 t2 q p s = Return (results, a) s'
           ∧ query_plan a = dicts
           ∧ query_history s' = query_history s ++ [a])
  ∧ (∀ plan e,
       connection ("EXPLAIN QUERY PLAN " +:+ q) (default [] p) = inr plan →
       dict_rows plan = inl e →
       explain_query connection q p = Error (exn_str e)
       ∧ analyze_query connection t0 t1 t2 q p s = Raise e s).
Proof.
  intros Hexec. rewrite analyze_query_plan_rows, Hexec.
  unfold explain_query, plan_rows. split_and!.
  - intros e He. rewrite He. simpl. split; [done|]. by eexists _, _.
  - intros plan dicts Hplan Hdicts. rewrite Hplan, Hdicts. split; [done|].
    by eexists _, _.
  - intros plan e Hplan He. by rewrite Hplan, He.
Qed.

End analyzer_ops_facts.

(** * Properties of the request handler [get_users] *)

Section app_facts.
Context {row drow : Type} `{!QueryCache.PyLib string} `{!App.Sqlite3Row row drow}.
Import App.

(** The rows of the pool's connections always convert. *)
Lemma dict_rows_sqlite3_Row (rows : list row) :
  QueryAnalyzer.dict_rows (PyDict0:=sqlite3_Row_dict) rows = inr (Row_dict <$> rows).
Proof. induction rows as [|r rows IH]; simpl; [done|]. by rewrite IH. Qed.

Lemma get_connection_Raise now tnew s e s' :
  ConnectionPool.get_connection now tnew s = Raise e s' →
  s' = ConnectionPool.incr_total_requests s.
Proof.
  unfold ConnectionPool.get_connection.
  destruct (Queue.get _ _) as [e'|[conn q]] eqn:Hq; simpl.
  - destruct e'; try by intros [= _ <-].
    destruct (_ <? _); simpl; [done|]. by intros [= _ <-].
  - by destruct (ConnectionPool.is_expired _ _ _).
Qed.

Lemma get_connection_queue now tnew s conn s' :
  ConnectionPool.get_connection now tnew s = Return conn s' →
  Queue.qsize (ConnectionPool.available s) ≤ Queue.qsize (ConnectionPool.available s') + 1.
Proof.
  unfold ConnectionPool.get_connection, Queue.get, Queue.qsize. simpl.
  case_bool_decide; simpl; [done|].
  destruct (Queue.queue (ConnectionPool.available s)) as [|c rest] eqn:Hq; simpl.
  - destruct (_ <? _); simpl; [|done]. intros [= _ <-]. simpl. rewrite Hq. simpl. lia.
  - destruct (ConnectionPool.is_expired _ _ _); simpl; intros [= _ <-]; simpl; lia.
Qed.

Lemma cache_get_fields now q p (s : QueryCache.t (list row)) :
  QueryCache.ttl (QueryCache.get now q p s).2 = QueryCache.ttl s
  ∧ QueryCache.max_size (QueryCache.get now q p s).2 = QueryCache.max_size s.
Proof.
  unfold QueryCache.get. destruct (QueryCache.dict_get _ _) as [[tm v]|]; [|done].
  by case_bool_decide.
Qed.

Lemma cache_set_Raise now q p v (s : QueryCache.t (list row)) e s' :
  QueryCache.set now q p v s = Raise e s' → s' = s ∧ QueryCache.max_size s = 0.
Proof.
  unfold QueryCache.set, QueryCache.evict_oldest.
  destruct (QueryCache.max_size s <=? length (QueryCache.cache s)) eqn:Hfull; [|done].
  apply Nat.leb_le in Hfull.
  destruct (QueryCache.py_min _ _) as [k|] eqn:Hmin; [done|].
  intros [= _ <-]. split; [done|].
  destruct (QueryCache.cache s) as [|[k v'] d] eqn:Hc; [simpl in Hfull; lia|done].
Qed.

(** The pool a request that obtained the handle [conn] leaves. *)
Lemma get_users_pool engine clk city (st : state row drow) conn p :
  (QueryCache.get (t_cache_get clk) (users_query city).1 (users_query city).2 (cache st)).1
    = None →
  ConnectionPool.get_connection (t_acquire clk) (t_new_handle clk) (pool st) = Return conn p →
  pool (state_of (get_users engine clk city st)) = ConnectionPool.release_connection conn p.
Proof.
  unfold get_users. destruct (users_query city) as [q ps]. simpl.
  destruct (QueryCache.get _ q ps (cache st)) as [cached c]. simpl. intros -> Hget.
  simpl. rewrite Hget.
  destruct (QueryAnalyzer.analyze_query _ _ _ _ _ _ _) as [[rows a] an|e an]; simpl; [|done].
  by destruct (QueryCache.set _ _ _ _ _).
Qed.

(** X19. [get_users] leaks no connection: whatever the cache, the pool and
    the engine do, and whether the request returns or raises, the pool it
    leaves is one a session reaches, has the handles in use it had before,
    and has not lost a handle from its queue. *)
Theorem get_users_returns_its_connection engine clk city (st : state row drow) :
  PoolSession.reachable (pool st) →
  let st' := state_of (get_users engine clk city st) in
  PoolSession.reachable (pool st')
  ∧ ConnectionPool.in_use (pool st') = ConnectionPool.in_use (pool st)
  ∧ Queue.qsize (ConnectionPool.available (pool st))
    ≤ Queue.qsize (ConnectionPool.available (pool st')).
Proof.
  intros Hr. simpl.
  destruct (QueryCache.get (t_cache_get clk) (users_query city).1 (users_query city).2
              (cache st)).1 as [rows|] eqn:Hhit.
  - assert (pool (state_of (get_users engine clk city st)) = pool st) as ->; [|done].
    unfold get_users. destruct (users_query city) as [q ps]. simpl in Hhit.
    destruct (QueryCache.get _ q ps (cache st)) as [cached c]. simpl in Hhit. by subst.
  - destruct (ConnectionPool.get_connection (t_acquire clk) (t_new_handle clk) (pool st))
      as [conn p|e p] eqn:Hget.
    + rewrite (get_users_pool _ _ _ _ _ _ Hhit Hget).
      assert (PoolSession.reachable p) as Hrp.
      { replace p with (PoolSession.step (pool st)
                          (PoolSession.Acquire (t_acquire clk) (t_new_handle clk)))
          by (simpl; by rewrite Hget).
        by apply PoolSession.reachable_step. }
      pose proof (session_reachable_inv _ Hrp) as Hinv.
      pose proof (get_connection_in_use _ _ _ _ _ Hget) as Huse.
      pose proof (get_connection_queue _ _ _ _ _ Hget) as Hq.
      assert (conn ∈ ConnectionPool.in_use p) as Hheld
        by (rewrite Huse; apply elem_of_snoc).
      assert (conn ∉ ConnectionPool.in_use (pool st)) as Hfree.
      { destruct Hinv as [Hnd _ _ _]. rewrite Huse in Hnd.
        apply NoDup_app in Hnd as (_ & _ & Hnd). apply NoDup_app in Hnd as (_ & Hnd & _).
        intros Hin. apply (Hnd conn Hin). by apply list_elem_of_singleton. }
      split; [apply (PoolSession.reachable_step p (PoolSession.Release conn) Hrp)|].
      rewrite (release_connection_requeue conn p Hheld (inv_not_full conn p Hinv Hheld)).
      simpl. rewrite Huse, list_remove_first_snoc by done. split; [done|].
      unfold Queue.qsize in *. simpl. rewrite length_app. simpl. lia.
    + assert (pool (state_of (get_users engine clk city st)) = p) as ->.
      { unfold get_users. destruct (users_query city) as [q ps]. simpl in Hhit.
        destruct (QueryCache.get _ q ps (cache st)) as [cached c]. simpl in Hhit. subst.
        simpl. by rewrite Hget. }
      rewrite (get_connection_Raise _ _ _ _ _ Hget). split_and!; [|done|done].
      replace (ConnectionPool.incr_total_requests (pool st))
        with (PoolSession.step (pool st)
                (PoolSession.Acquire (t_acquire clk) (t_new_handle clk))).
      * by apply PoolSession.reachable_step.
      * simpl. rewrite Hget. simpl. by apply get_connection_Raise in Hget.
Qed.

Lemma connection_of_held engine conn p :
  ConnectionPool.inv p → conn ∈ ConnectionPool.in_use p →
  connection_of (row:=row) engine conn p = engine.
Proof.
  intros [_ _ _ Hlive] Hheld. unfold connection_of.
  destruct (Hlive conn) as (pc & -> & Hopen & _); [apply elem_of_app; by right|].
  simpl. by rewrite Hopen.
Qed.

Lemma get_connection_reached now tnew s conn p :
  PoolSession.reachable s →
  ConnectionPool.get_connection now tnew s = Return conn p →
  ConnectionPool.inv p ∧ conn ∈ ConnectionPool.in_use p.
Proof.
  intros Hr Hget. split; [|by eapply get_connection_returns_held].
  replace p with (state_of (ConnectionPool.get_connection now tnew s)) by by rewrite Hget.
  by apply get_connection_inv, session_reachable_inv.
Qed.

(** X20. Cache-aside: after a request that was answered from the database
    ([cached] false), a request for the same city whose reading of the
    clock is less than [ttl] after the entry was stored returns the same
    users with [cached] true, whatever the engine would answer, and changes
    nothing but the hit counter of the cache; a request made later than that
    is not answered from the cache. *)
Theorem get_users_second_request_is_cached engine engine' clk clk' city
    (st : state row drow) r st' :
  get_users engine clk city st = Return r st' →
  cached r = false →
  ((t_cache_get clk' - t_cache_set clk < QueryCache.ttl (cache st))%Z →
     get_users engine' clk' city st' =
       Return (mk_response (users r) (count r) true None)
         (mk_state (pool st') (analyzer st')
            (QueryCache.mk (QueryCache.ttl (cache st')) (QueryCache.max_size (cache st'))
               (QueryCache.cache (cache st')) (QueryCache.hits (cache st') + 1)
               (QueryCache.misses (cache st')) (QueryCache.evictions (cache st')))))
  ∧ (¬ (t_cache_get clk' - t_cache_set clk < QueryCache.ttl (cache st))%Z →
     ∀ r2 st2, get_users engine' clk' city st' = Return r2 st2 → cached r2 = false).
Proof.
  unfold get_users. destruct (users_query city) as [q ps].
  pose proof (cache_get_fields (t_cache_get clk) q ps (cache st)) as [Httl _].
  destruct (QueryCache.get (t_cache_get clk) q ps (cache st)) as [[rows|] c];
    simpl in *; [by intros [= <- <-]|].
  destruct (ConnectionPool.get_connection _ _ (pool st)) as [conn p|e p]; simpl; [|done].
  destruct (QueryAnalyzer.analyze_query _ _ _ _ _ _ _) as [[rows a] an|e an]; simpl; [|done].
  destruct (QueryCache.set _ _ _ _ _) as [[] c'|e c'] eqn:Hset; simpl; [|done].
  intros [= <- <-] _. simpl.
  destruct (set_Return _ _ _ _ _ _ Hset) as (Hkey & Httl' & _). clear Hset.
  unfold QueryCache.get. rewrite Hkey, Httl', Httl. split; intros Hage.
  - by rewrite bool_decide_eq_true_2 by done.
  - rewrite bool_decide_eq_false_2 by done. simpl. intros r2 st2.
    destruct (ConnectionPool.get_connection _ _ _) as [conn2 p2|e2 p2]; simpl; [|done].
    destruct (QueryAnalyzer.analyze_query _ _ _ _ _ _ _) as [[rows2 a2] an2|e2 an2];
      simpl; [|done].
    destruct (QueryCache.set _ _ _ _ _) as [[] c2|e2 c2]; simpl; [|done].
    by intros [= <- _].
Qed.

(** X21. A request that raises has stored nothing: the cache is the one its
    own look-up, a miss, left.  The exception is the one [get_connection]
    raised, or the one the engine raised for the query, and then the
    analyzer is unchanged; or it is the [ValueError] of [min], when
    [max_size] is 0, and then the analyzer has recorded the query. *)
Theorem get_users_failure_stores_nothing engine clk city (st : state row drow) e st' :
  get_users engine clk city st = Raise e st' →
  QueryCache.get (t_cache_get clk) (users_query city).1 (users_query city).2 (cache st)
    = (None, cache st')
  ∧ ((∃ p, ConnectionPool.get_connection (t_acquire clk) (t_new_handle clk) (pool st)
             = Raise e p
         ∧ analyzer st' = analyzer st)
     ∨ (∃ conn p, ConnectionPool.get_connection (t_acquire clk) (t_new_handle clk) (pool st)
                    = Return conn p
          ∧ connection_of engine conn p (users_query city).1
              (default [] (users_query city).2) = inl e
          ∧ analyzer st' = analyzer st)
     ∨ (QueryCache.max_size (cache st) = 0
        ∧ e = ValueError "min() arg is an empty sequence"
        ∧ ∃ a, QueryAnalyzer.query_history (analyzer st')
               = QueryAnalyzer.query_history (analyzer st) ++ [a])).
Proof.
  unfold get_users. destruct (users_query city) as [q ps]. simpl.
  pose proof (cache_get_fields (t_cache_get clk) q ps (cache st)) as [_ Hmax].
  destruct (QueryCache.get (t_cache_get clk) q ps (cache st)) as [[rows|] c];
    simpl in *; [done|].
  destruct (ConnectionPool.get_connection _ _ (pool st)) as [conn p|e1 p]; simpl.
  - unfold QueryAnalyzer.analyze_query.
    destruct (connection_of engine conn p q (default [] ps)) as [e1|rows] eqn:Hq; simpl.
    + intros [= <- <-]. simpl. split; [done|]. right. left. by exists conn, p.
    + rewrite dict_rows_sqlite3_Row. simpl.
      destruct (QueryCache.set _ _ _ _ _) as [[] c'|e1 c'] eqn:Hset; simpl; [done|].
      intros [= <- <-]. simpl. destruct (cache_set_Raise _ _ _ _ _ _ _ Hset) as [-> Hzero].
      split; [done|]. right. right. split; [congruence|]. split.
      * unfold QueryCache.set, QueryCache.evict_oldest in Hset.
        destruct (_ <=? _); [|done]. destruct (QueryCache.py_min _ _); [done|].
        by injection Hset as <-.
      * case_bool_decide; simpl; by eexists.
  - intros [= <- <-]. simpl. split; [done|]. left. by exists p.
Qed.

(** X22. A request the cache cannot answer goes to the database: in a pool
    a session reaches, when [get_connection] returns a handle, the engine
    answers the query and [max_size] is at least 1, the request returns the
    rows of the engine with their number, [cached] false and the measured
    time; the analyzer has recorded the query, the cache holds the rows
    under the key of the query with the time of the [set], and the handle is
    back in the pool. *)
Theorem get_users_miss_queries_the_database engine clk city (st : state row drow)
    conn p rows :
  PoolSession.reachable (pool st) →
  1 ≤ QueryCache.max_size (cache st) →
  (QueryCache.get (t_cache_get clk) (users_query city).1 (users_query city).2 (cache st)).1
    = None →
  ConnectionPool.get_connection (t_acquire clk) (t_new_handle clk) (pool st) = Return conn p →
  engine (users_query city).1 (default [] (users_query city).2) = inr rows →
  ∃ st' a,
    get_users engine clk city st =
      Return (mk_response rows (length rows) false (Some (t_end clk - t_start clk)%Z)) st'
    ∧ QueryAnalyzer.query_history (analyzer st')
      = QueryAnalyzer.query_history (analyzer st) ++ [a]
    ∧ QueryAnalyzer.query a = (users_query city).1
    ∧ QueryAnalyzer.rows_returned a = length rows
    ∧ QueryCache.dict_get
        (QueryCache._generate_key (users_query city).1 (users_query city).2)
        (QueryCache.cache (cache st')) = Some (t_cache_set clk, rows)
    ∧ pool st' = ConnectionPool.release_connection conn p
    ∧ (conn ∉ ConnectionPool.in_use (pool st')).
Proof.
  intros Hr Hsize Hmiss Hget Hrows.
  destruct (get_connection_reached _ _ _ _ _ Hr Hget) as [Hinv Hheld].
  pose proof (get_users_pool engine clk city st conn p Hmiss Hget) as Hpool.
  assert (conn ∉ ConnectionPool.in_use (ConnectionPool.release_connection conn p)) as Hfree.
  { rewrite (release_connection_requeue conn p Hheld (inv_not_full conn p Hinv Hheld)).
    simpl. destruct Hinv as [Hnd _ _ _]. apply NoDup_app in Hnd as (_ & _ & Hnd).
    by apply list_remove_first_nodup. }
  revert Hpool. unfold get_users. destruct (users_query city) as [q ps]. simpl in *.
  pose proof (cache_get_fields (t_cache_get clk) q ps (cache st)) as [_ Hmax].
  destruct (QueryCache.get (t_cache_get clk) q ps (cache st)) as [cached c].
  simpl in *. subst cached. rewrite Hget. simpl.
  rewrite (connection_of_held engine conn p Hinv Hheld).
  unfold QueryAnalyzer.analyze_query. rewrite Hrows. simpl.
  rewrite dict_rows_sqlite3_Row. simpl.
  destruct (set_returns (t_cache_set clk) q ps rows c) as [c' Hset]; [lia|].
  rewrite Hset.
  destruct (set_Return _ _ _ _ _ _ Hset) as (Hkey & _).
  case_bool_decide; simpl; intros _; eexists _, _; (split; [done|]); simpl;
    split_and!; done.
Qed.

End app_facts.

(** * The further properties at concrete inputs *)

Section session_witnesses.
Import Examples SessionExamples.
Local Existing Instance row_dicts.

Lemma pool_idle_session_reachable : PoolSession.reachable pool_idle.
Proof.
  apply (PoolSession.reachable_init (λ _, (0, 0)%Z) "demo.db" 1 2 30 300); [lia|].
  vm_compute. reflexivity.
Qed.

Lemma pool_busy_session_reachable : PoolSession.reachable pool_busy.
Proof.
  replace pool_busy with (PoolSession.step pool_idle (PoolSession.Acquire 10 (10, 10)%Z))
    by (vm_compute; reflexivity).
  apply PoolSession.reachable_step, pool_idle_session_reachable.
Qed.

Lemma pool_exhausted_session_reachable : PoolSession.reachable pool_exhausted.
Proof.
  replace pool_exhausted
    with (PoolSession.step pool_busy (PoolSession.Acquire 11 (11, 11)%Z))
    by (vm_compute; reflexivity).
  apply PoolSession.reachable_step, pool_busy_session_reachable.
Qed.

Lemma session_keeps_pool_invariant_witness :
  Queue.qsize (ConnectionPool.available pool_exhausted)
    + length (ConnectionPool.in_use pool_exhausted)
    ≤ ConnectionPool.max_connections pool_exhausted
  ∧ NoDup (Queue.queue (ConnectionPool.available pool_exhausted)
           ++ ConnectionPool.in_use pool_exhausted).
Proof.
  destruct (session_keeps_pool_invariant pool_exhausted pool_exhausted_session_reachable)
    as (Hbound & Hnd & _).
  split; [exact Hbound|exact Hnd].
Defined.

Lemma get_connection_hands_out_free_open_handle_witness :
  (0 ∉ ConnectionPool.in_use pool_idle)
  ∧ ConnectionPool.in_use pool_busy = ConnectionPool.in_use pool_idle ++ [0]
  ∧ ∃ pc, ConnectionPool.objects pool_busy !! 0 = Some pc
      ∧ PooledConnection.connection pc = PooledConnection.Open
      ∧ PooledConnection.in_use pc = true.
Proof.
  destruct (get_connection_hands_out_free_open_handle 10 (10, 10)%Z pool_idle 0 pool_busy
              pool_idle_session_reachable pool_busy_after_get)
    as (Hfree & Huse & Hopen & _).
  split; [exact Hfree|]. split; [exact Huse|exact Hopen].
Defined.

Lemma pool_counters_add_up_witness :
  ConnectionPool.total_created pool_exhausted
    = ConnectionPool.min_connections pool_exhausted
      + ConnectionPool.total_misses pool_exhausted
  ∧ Qle (PoolSession.hit_rate pool_exhausted) (inject_Z 100).
Proof.
  destruct (pool_counters_add_up pool_exhausted pool_exhausted_session_reachable)
    as (Hcreated & _ & _ & Hrate).
  split; [exact Hcreated|exact Hrate].
Defined.

Lemma get_connection_fails_only_when_all_in_use_witness :
  (∃ conn s', ConnectionPool.get_connection 11 (11, 11)%Z pool_busy = Return conn s'
     ∧ length (ConnectionPool.in_use s') = length (ConnectionPool.in_use pool_busy) + 1)
  ∧ ConnectionPool.get_connection 12 (12, 12)%Z pool_exhausted
    = Raise (TimeoutError "No available connections in pool")
            (ConnectionPool.incr_total_requests pool_exhausted).
Proof.
  split.
  - destruct (get_connection_fails_only_when_all_in_use 11 (11, 11)%Z pool_busy
                pool_busy_session_reachable) as [Hroom _]; [simpl; lia|].
    apply Hroom. simpl. lia.
  - destruct (get_connection_fails_only_when_all_in_use 12 (12, 12)%Z pool_exhausted
                pool_exhausted_session_reachable) as [_ Hfull]; [simpl; lia|].
    destruct Hfull as [_ Hraise]; [simpl; lia|]. exact Hraise.
Defined.

Lemma release_then_get_returns_same_handle_witness :
  ∃ s', ConnectionPool.get_connection 13 (13, 13)%Z
          (ConnectionPool.release_connection 0 pool_exhausted) = Return 0 s'
    ∧ ConnectionPool.in_use s' = [1; 0]
    ∧ ConnectionPool.total_hits s' = ConnectionPool.total_hits pool_exhausted + 1.
Proof.
  destruct (release_then_get_returns_same_handle 13 (13, 13)%Z pool_exhausted 0
              (PooledConnection.mk PooledConnection.Open 0 0 true)
              pool_exhausted_session_reachable)
    as (s' & Hget & _ & _ & Huse & _ & Hhits & _).
  - simpl. lia.
  - reflexivity.
  - constructor.
  - reflexivity.
  - simpl. lia.
  - exists s'. split; [exact Hget|]. split; [exact Huse|exact Hhits].
Defined.

Lemma release_each_returns_all_handles_witness :
  ConnectionPool.in_use
    (PoolSession.release_each (ConnectionPool.in_use pool_exhausted) pool_exhausted) = []
  ∧ Queue.queue (ConnectionPool.available
       (PoolSession.release_each (ConnectionPool.in_use pool_exhausted) pool_exhausted))
    = [0; 1].
Proof.
  destruct (release_each_returns_all_handles pool_exhausted pool_exhausted_session_reachable)
    as (Huse & Hq & _).
  split; [exact Huse|exact Hq].
Defined.

Lemma cache_counters_count_calls_witness :
  let cs := [QueryCache.CGet 5 "a" None; QueryCache.CSet 6 "c" None ["row c"];
             QueryCache.CInvalidate (Some "b") None; QueryCache.CGet 7 "c" None] in
  let s' := QueryCache.run (PyLib0:=plain_keys) cs cache_ab in
  QueryCache.stats_total_requests (QueryCache.get_stats s')
    = QueryCache.stats_total_requests (QueryCache.get_stats cache_ab) + 2
  ∧ QueryCache.evictions s' ≤ QueryCache.evictions cache_ab + 1.
Proof.
  intros cs s'.
  destruct (@cache_counters_count_calls string (list string) plain_keys cs cache_ab)
    as (Hreq & _ & Hev).
  - repeat constructor.
  - split; [exact Hreq|exact Hev].
Defined.

Lemma reads_do_not_extend_ttl_witness :
  let s1 := QueryCache.mk 300 3
              [("a", (1%Z, ["row a"])); ("b", (2%Z, ["row b"])); ("c", (10%Z, ["row c"]))]
              0 0 0 in
  QueryCache.set (PyLib0:=plain_keys) 10 "c" None ["row c"] cache_ab_room = Return () s1
  ∧ (QueryCache.get (PyLib0:=plain_keys) 310 "c" None
       (QueryCache.run (PyLib0:=plain_keys)
          [QueryCache.CGet 100 "c" None; QueryCache.CGet 309 "c" None] s1)).1 = None.
Proof.
  intros s1. split; [reflexivity|].
  apply (@reads_do_not_extend_ttl string (list string) plain_keys
           cache_ab_room 10%Z "c" None ["row c"] s1).
  - exact cache_ab_wf.
  - reflexivity.
  - repeat constructor.
  - simpl. lia.
Defined.

Lemma eviction_takes_expired_entry_first_witness :
  ∃ oldest_key tm v,
    QueryCache.dict_get oldest_key (QueryCache.cache cache_ab) = Some (tm, v)
    ∧ QueryCache.evictions
        (state_of (QueryCache.set (PyLib0:=plain_keys) 400 "c" None ["row c"] cache_ab)) = 1
    ∧ (CacheSession.expired cache_ab 301 2 → CacheSession.expired cache_ab 301 tm).
Proof.
  destruct (@eviction_takes_expired_entry_first string (list string) plain_keys
              cache_ab 400%Z "c" None ["row c"])
    as (oldest & tm & v & Hget & Hset & Hfirst & _).
  - simpl. lia.
  - simpl. lia.
  - exists oldest, tm, v. split; [exact Hget|]. split; [rewrite Hset; reflexivity|].
    intros Hb. apply Hfirst. exists "b", 2%Z, ["row b"]. split; [reflexivity|exact Hb].
Defined.

Lemma get_after_invalidation_misses_witness :
  QueryCache.get (PyLib0:=plain_keys) 5 "a" None
    (QueryCache.invalidate (PyLib0:=plain_keys) (Some "a") None cache_ab)
  = (None, QueryCache.mk 300 2 [("b", (2%Z, ["row b"]))] 0 1 0)
  ∧ QueryCache.get (PyLib0:=plain_keys) 5 "a" None
      (CacheStrategy.invalidate_on_write cache_ab "users")
    = (None, QueryCache.mk 300 2 [] 0 1 0).
Proof.
  destruct (@get_after_invalidation_misses string (list string) plain_keys
              cache_ab 5%Z "a" None cache_ab_wf) as (Hone & _ & _ & Hwrite & _).
  split; [apply Hone; discriminate|apply Hwrite].
Defined.

Lemma query_stats_min_avg_max_witness :
  ∃ lo hi avg,
    QueryAnalyzer.get_query_stats analyzer_one !! "min_execution_time"
      = Some (QueryAnalyzer.SSeconds (inject_Z lo))
    ∧ QueryAnalyzer.get_query_stats analyzer_one !! "max_execution_time"
      = Some (QueryAnalyzer.SSeconds (inject_Z hi))
    ∧ QueryAnalyzer.get_query_stats analyzer_one !! "avg_execution_time"
      = Some (QueryAnalyzer.SSeconds avg)
    ∧ Qle (inject_Z lo) avg
    ∧ Qle avg (inject_Z hi).
Proof.
  destruct (query_stats_min_avg_max analyzer_one)
    as (lo & hi & avg & _ & _ & Hlo & Hhi & Havg & _ & _ & _ & Hle1 & Hle2).
  - discriminate.
  - exists lo, hi, avg. split; [exact Hlo|]. split; [exact Hhi|]. split; [exact Havg|].
    split; [exact Hle1|exact Hle2].
Defined.

Lemma slow_query_percentage_in_range_witness :
  let s := QueryAnalyzerOps.run
             [QueryAnalyzerOps.Analyze engine (QueryAnalyzerOps.mk_readings 10 14 15)
                "SELECT * FROM users" None;
              QueryAnalyzerOps.Analyze engine (QueryAnalyzerOps.mk_readings 20 21 22)
                "SELECT * FROM users" None]
             (QueryAnalyzer.__init__ 3) in
  ∃ pct, QueryAnalyzer.get_query_stats s !! "slow_query_percentage"
           = Some (QueryAnalyzer.SPercent pct)
    ∧ Qle (inject_Z 0) pct
    ∧ Qle pct (inject_Z 100).
Proof.
  intros s. apply (slow_query_percentage_in_range 3%Z). discriminate.
Defined.


Lemma compare_queries_verdict_witness :
  ∃ cmp s',
    QueryAnalyzerOps.compare_queries engine
      (QueryAnalyzerOps.mk_readings 10 14 15) (QueryAnalyzerOps.mk_readings 20 22 23)
      "SELECT * FROM users" "SELECT * FROM users" None None (QueryAnalyzer.__init__ 3)
    = Return cmp s'
    ∧ QueryAnalyzerOps.faster cmp = "query2"
    ∧ Qeq (Qmult (QueryAnalyzerOps.speedup cmp) (inject_Z 2)) (inject_Z 4).
Proof.
  assert (∃ cmp s',
            QueryAnalyzerOps.compare_queries engine
              (QueryAnalyzerOps.mk_readings 10 14 15) (QueryAnalyzerOps.mk_readings 20 22 23)
              "SELECT * FROM users" "SELECT * FROM users" None None
              (QueryAnalyzer.__init__ 3) = Return cmp s') as (cmp & s' & Hrun)
    by (eexists _, _; reflexivity).
  exists cmp, s'. split; [exact Hrun|].
  destruct (compare_queries_verdict engine
              (QueryAnalyzerOps.mk_readings 10 14 15) (QueryAnalyzerOps.mk_readings 20 22 23)
              "SELECT * FROM users" "SELECT * FROM users" None None
              (QueryAnalyzer.__init__ 3) cmp s' Hrun) as (Hfaster & _ & _ & Hspeed).
  split.
  - apply Hfaster. simpl. lia.
  - apply Hspeed. simpl. lia.
Defined.

Lemma analyze_query_records_explained_plan_witness :
  (QueryAnalyzerOps.explain_query engine "SELECT * FROM users" None
   = QueryAnalyzerOps.Plan "SELECT * FROM users" ["SCAN users"]
   ∧ ∃ a s',
       QueryAnalyzer.analyze_query engine 10 14 15 "SELECT * FROM users" None
         (QueryAnalyzer.__init__ 3) = Return (["ann"; "bob"], a) s'
       ∧ QueryAnalyzer.query_plan a = ["SCAN users"]
       ∧ QueryAnalyzer.query_history s' = [a])
  ∧ (QueryAnalyzerOps.explain_query tuple_engine "SELECT * FROM users" None
     = QueryAnalyzerOps.Error
         "cannot convert dictionary update sequence element #0 to a sequence"
     ∧ QueryAnalyzer.analyze_query tuple_engine 10 14 15 "SELECT * FROM users" None
         (QueryAnalyzer.__init__ 3)
       = Raise (TypeError "cannot convert dictionary update sequence element #0 to a sequence")
               (QueryAnalyzer.__init__ 3)).
Proof.
  split.
  - destruct (analyze_query_records_explained_plan engine 10 14 15 "SELECT * FROM users" None
                (QueryAnalyzer.__init__ 3) ["ann"; "bob"] eq_refl) as (_ & Hplan & _).
    exact (Hplan ["SCAN users"] ["SCAN users"] eq_refl eq_refl).
  - destruct (analyze_query_records_explained_plan tuple_engine 10 14 15
                "SELECT * FROM users" None (QueryAnalyzer.__init__ 3)
                ["(1, 'ann')"; "(2, 'bob')"] eq_refl) as (_ & _ & Hraise).
    exact (Hraise ["(2, 0, 0, 'SCAN users')"] _ eq_refl eq_refl).
Defined.

Lemma get_users_returns_its_connection_witness :
  let st' := state_of (@App.get_users string string plain_keys text_rows users_engine first_request None
                         app_start) in
  PoolSession.reachable (App.pool st')
  ∧ ConnectionPool.in_use (App.pool st') = []
  ∧ 1 ≤ Queue.qsize (ConnectionPool.available (App.pool st')).
Proof.
  exact (@get_users_returns_its_connection string string plain_keys text_rows users_engine first_request None
           app_start pool_idle_session_reachable).
Defined.

Lemma get_users_second_request_is_cached_witness :
  ∃ r st',
    @App.get_users string string plain_keys text_rows users_engine first_request None app_start = Return r st'
    ∧ App.cached r = false
    ∧ (∃ st'', @App.get_users string string plain_keys text_rows engine second_request None st'
               = Return (App.mk_response (App.users r) 2 true None) st'')
    ∧ ∀ r2 st2, @App.get_users string string plain_keys text_rows users_engine late_request None st'
                = Return r2 st2 → App.cached r2 = false.
Proof.
  eexists _, _. split; [reflexivity|]. split; [reflexivity|].
  destruct (@get_users_second_request_is_cached string string plain_keys text_rows users_engine engine
              first_request second_request None app_start _ _ eq_refl eq_refl)
    as [Hfresh _].
  destruct (@get_users_second_request_is_cached string string plain_keys text_rows users_engine users_engine
              first_request late_request None app_start _ _ eq_refl eq_refl)
    as [_ Hstale].
  split.
  - eexists. apply Hfresh. simpl. lia.
  - apply Hstale. simpl. lia.
Defined.

Lemma get_users_failure_stores_nothing_witness :
  ∃ st',
    @App.get_users string string plain_keys text_rows engine first_request None app_start
      = Raise (sqlite3_Error "no such table") st'
    ∧ QueryCache.get (PyLib0:=plain_keys) 10 (App.users_query None).1
        (App.users_query None).2 (App.cache app_start) = (None, App.cache st').
Proof.
  eexists. split; [reflexivity|].
  exact (proj1 (@get_users_failure_stores_nothing string string plain_keys text_rows engine first_request None
                  app_start _ _ eq_refl)).
Defined.

Lemma get_users_miss_queries_the_database_witness :
  ∃ st' a,
    @App.get_users string string plain_keys text_rows users_engine first_request None app_start
      = Return (App.mk_response
                  ["1|ann|ann@example.org|Paris"; "2|bob|bob@example.org|Rome"] 2 false
                  (Some 2%Z)) st'
    ∧ QueryAnalyzer.query_history (App.analyzer st') = [a]
    ∧ QueryAnalyzer.rows_returned a = 2
    ∧ (0 ∉ ConnectionPool.in_use (App.pool st')).
Proof.
  destruct (@get_users_miss_queries_the_database string string plain_keys text_rows users_engine first_request
              None app_start 0 pool_busy
              ["1|ann|ann@example.org|Paris"; "2|bob|bob@example.org|Rome"]
              pool_idle_session_reachable)
    as (st' & a & Hrun & Hhist & _ & Hrows & _ & _ & Hfree).
  - simpl. lia.
  - reflexivity.
  - exact pool_busy_after_get.
  - reflexivity.
  - exists st', a. split; [exact Hrun|]. split; [exact Hhist|].
    split; [exact Hrows|exact Hfree].
Defined.

End session_witnesses.
